(** * Acts::propagation — the Propagator steering loop

    A shallow embedding of [Core/include/Acts/Propagator/Propagator.hpp]:
    the [Status] and [Direction] enumerations, the [Result] and [Options]
    aggregates, the private stepping loop [propagate_] and the two public
    [propagate] overloads.

    The C++ code threads three mutable objects through the loop: the
    [result], the stepper [cache] and (through calls into the stepping
    implementation, the action list and the abort lists) the outside world.
    The embedding threads them through a small state monad; the calls made
    into the collaborators are recorded in a call log so that statements
    such as "how often was [step] invoked" can be phrased.

    [double] is modelled by Rocq's primitive binary64 floats, [unsigned int]
    by [N] with the 32-bit wrap-around written out. *)

From Stdlib Require Import NArith ZArith List Bool Lia.
From Stdlib Require Import PrimFloat.
From Stdlib Require SpecFloat FloatOps FloatAxioms.
Import ListNotations.

Set Implicit Arguments.

(** ** Enumerations *)

(** [enum Direction : int { backward = -1, forward = 1 }] *)
Inductive Direction : Type := backward | forward.

(** A [Direction] operand of a [double] multiplication: the enumerator's
    value, [-1] or [1], after the usual conversion [int -> double]. *)
Definition Direction_double (d : Direction) : float :=
  match d with
  | backward => (-1)%float
  | forward => 1%float
  end.

(** [enum struct Status { SUCCESS, FAILURE, UNSET, IN_PROGRESS, WRONG_DIRECTION }] *)
Inductive Status : Type :=
| SUCCESS
| FAILURE
| UNSET
| IN_PROGRESS
| WRONG_DIRECTION.

Definition Status_eqb (a b : Status) : bool :=
  match a, b with
  | SUCCESS, SUCCESS
  | FAILURE, FAILURE
  | UNSET, UNSET
  | IN_PROGRESS, IN_PROGRESS
  | WRONG_DIRECTION, WRONG_DIRECTION => true
  | _, _ => false
  end.

(** ** [unsigned int] *)

Definition UINT_MODULUS : N := 2 ^ 32.

(** [++n] on an [unsigned int]. *)
Definition uint_incr (n : N) : N := ((n + 1) mod UINT_MODULUS)%N.

(** ** The propagation result *)

Section ResultType.

(** [TrackParameters]: type of the final track parameters;
    [Ext]: the additional propagation quantities
    ([detail::Extendable<ExResult...>]). *)
Variables (TrackParameters Ext : Type).

Record Result : Type := mkResult {
  (** [std::unique_ptr<const TrackParameters> endParameters = nullptr] *)
  endParameters : option TrackParameters;
  (** [Status status] *)
  status : Status;
  (** [unsigned int steps = 0] *)
  steps : N;
  (** [double pathLength = 0.] *)
  pathLength : float;
  (** the [Extendable] base sub-object *)
  extension : Ext
}.

(** [Result(Status s = Status::UNSET)]: the base is default-constructed,
    [status] is initialised from [s], every other member takes its default
    member initialiser. *)
Definition Result_ctor (ext0 : Ext) (s : Status) : Result :=
  {| endParameters := None;
     status := s;
     steps := 0%N;
     pathLength := 0%float;
     extension := ext0 |}.

(** [operator bool() const] *)
Definition isValid (r : Result) : bool :=
  match endParameters r with
  | Some _ => true
  | None => false
  end && Status_eqb (status r) SUCCESS.

Definition set_endParameters (r : Result) (p : TrackParameters) : Result :=
  {| endParameters := Some p; status := status r; steps := steps r;
     pathLength := pathLength r; extension := extension r |}.

Definition set_status (r : Result) (s : Status) : Result :=
  {| endParameters := endParameters r; status := s; steps := steps r;
     pathLength := pathLength r; extension := extension r |}.

Definition set_steps (r : Result) (n : N) : Result :=
  {| endParameters := endParameters r; status := status r; steps := n;
     pathLength := pathLength r; extension := extension r |}.

Definition set_pathLength (r : Result) (x : float) : Result :=
  {| endParameters := endParameters r; status := status r; steps := steps r;
     pathLength := x; extension := extension r |}.

Definition set_extension (r : Result) (e : Ext) : Result :=
  {| endParameters := endParameters r; status := status r; steps := steps r;
     pathLength := pathLength r; extension := e |}.

End ResultType.

(** ** Options of a [propagate] call *)

Record Options (Actions Aborters : Type) : Type := mkOptions {
  direction : Direction;
  max_steps : N;
  target_tolerance : float;
  max_step_size : float;
  max_path_length : float;
  action_list : Actions;
  stop_conditions : Aborters
}.

(** An [unsigned int] field holds a value below [2^32]. *)
Definition Options_wf {Actions Aborters} (o : Options Actions Aborters) : Prop :=
  (max_steps o < UINT_MODULUS)%N.

(** ** Collaborators of the propagator

    The propagator is a template over its collaborators; each template
    parameter becomes a type with an interface (a type class). *)

(** The stepping implementation [Impl]: the cache it works on, built from
    the start parameters ([cache_type cache(start)], or
    [cache_type cache(start, step_size)]), the assignment to the cache's
    [step_size] member, one propagation step (which updates the cache and
    returns the signed path length of the step) and the two conversions of a
    cache into final parameters. *)
Class Stepper (Start Surface Cache Out OutAt : Type) : Type := {
  cache_from : Start -> Cache;
  cache_from_sized : Start -> float -> Cache;
  set_step_size : Cache -> float -> Cache;
  step : Cache -> float * Cache;
  convert : Cache -> Out;
  convert_to : Cache -> Surface -> OutAt
}.

(** Modelled from the spec: [Acts/Propagator/ActionList.hpp] is not among
    the sources. An action list is called as [action_list(cache, result)];
    an action may mutate the cache and write into its own slot of the
    result's extension payloads, and nothing else of the result. *)
Class Actor (A Cache Ext : Type) : Type :=
  act : A -> Cache -> Ext -> Cache * Ext.

(** Modelled from the spec: [Acts/Propagator/AbortList.hpp] is not among the
    sources. An abort list is called as [stop_conditions(result, cache)];
    an aborter is a pure predicate of the result and the cache. *)
Class Aborter (A Cache R : Type) : Type :=
  abort_check : A -> R -> Cache -> bool.

(** [AbortList<>]: no condition, never aborts. *)
#[export] Instance AbortList_nil {Cache R} : Aborter unit Cache R :=
  fun _ _ _ => false.

(** [AbortList<first, others...>]: the conditions are tested in list order
    and OR'd. *)
#[export] Instance AbortList_cons {A B Cache R}
  `{Aborter A Cache R} `{Aborter B Cache R} : Aborter (A * B) Cache R :=
  fun ab r c => abort_check (fst ab) r c || abort_check (snd ab) r c.

(** [ActionList<>]: nothing happens. *)
#[export] Instance ActionList_nil {Cache Ext} : Actor unit Cache Ext :=
  fun _ c e => (c, e).

(** Modelled from the spec: [detail/standard_abort_conditions.hpp] is not
    among the sources. The state of the two internal aborters, as the
    propagator configures it. *)
Record path_limit_reached : Type := mk_path_limit_reached {
  signed_path_limit : float;
  pl_tolerance : float
}.

Record surface_reached (Surface : Type) : Type := mk_surface_reached {
  (** a non-owning pointer to the target *)
  sr_surface : Surface;
  sr_direction : Direction;
  sr_tolerance : float
}.

(** ** The call log

    One entry per call made into a collaborator, in program order. The log
    is ghost state: no program value depends on it. *)
Section CallLog.

Variables (Cache Surface IA : Type).

Inductive Event : Type :=
  | EvStep (advance : float)           (* m_impl.step(cache) returned advance *)
  | EvActions                          (* options.action_list(cache, result) *)
  | EvUserAbort (fired : bool)         (* options.stop_conditions(result, cache) *)
  | EvInternalAbort (which : IA) (fired : bool)
                                       (* internal_stop_conditions(result, cache) *)
  | EvConvert (c : Cache)              (* m_impl.convert(cache) *)
  | EvConvertTo (c : Cache) (target : Surface).
                                       (* m_impl.convert(cache, target) *)

Definition is_step (e : Event) : bool :=
  match e with EvStep _ => true | _ => false end.

(** How often [step] was invoked. *)
Definition step_calls (l : list Event) : nat :=
  length (filter is_step l).

(** The values [step] returned, in call order. *)
Fixpoint advances (l : list Event) : list float :=
  match l with
  | [] => []
  | EvStep a :: l' => a :: advances l'
  | _ :: l' => advances l'
  end.

Definition abort_fired (e : Event) : bool :=
  match e with
  | EvUserAbort b => b
  | EvInternalAbort _ b => b
  | _ => false
  end.

Definition is_convert (e : Event) : bool :=
  match e with EvConvert _ | EvConvertTo _ _ => true | _ => false end.

(** The loop was left by [break]: some abort list returned true. *)
Definition broke (l : list Event) : bool := existsb abort_fired l.

(** An entry, if it is a call of the internal abort list, is a call of
    the list [ia]. *)
Definition checks_with (ia : IA) (e : Event) : Prop :=
  match e with
  | EvInternalAbort a _ => a = ia
  | _ => True
  end.

End CallLog.

Arguments EvStep {Cache Surface IA} advance.
Arguments EvActions {Cache Surface IA}.
Arguments EvUserAbort {Cache Surface IA} fired.
Arguments EvInternalAbort {Cache Surface IA} which fired.
Arguments EvConvert {Cache Surface IA} c.
Arguments EvConvertTo {Cache Surface IA} c target.

(** The double-precision sum of a list, accumulated from [0.] from left to
    right, the way [pathLength += x] does. *)
Definition float_sum (l : list float) : float :=
  fold_left PrimFloat.add l 0%float.

(** ** The stepping loop [Propagator::propagate_] *)

Section Propagate_.

(** Template parameters of [propagate_] and of the enclosing class:
    [Cache] is [cache_type], [P] the final track parameter type of the
    result, [Ext] the extension payloads of the result, [Actions] and
    [Aborters] the user's lists, [IA] the internal abort list. *)
Context {Start Surface Cache Out OutAt : Type}
        {m_impl : Stepper Start Surface Cache Out OutAt}.
Context {P Ext Actions Aborters IA : Type}.
Context {actions_call : Actor Actions Cache Ext}
        {aborters_call : Aborter Aborters Cache (Result P Ext)}
        {internal_call : Aborter IA Cache (Result P Ext)}.

(** What [propagate_] works on: the two objects it receives by
    reference, and the call log. *)
Record PState : Type := mkPState {
  result : Result P Ext;
  cache : Cache;
  log : list (Event Cache Surface IA)
}.

(** State monad over [PState]; [None] is for a loop that ran out of
    fuel, and nothing else. *)
Definition M (A : Type) : Type := PState -> option (A * PState).

Definition ret {A} (a : A) : M A := fun st => Some (a, st).

Definition bind {A B} (m : M A) (f : A -> M B) : M B :=
  fun st =>
    match m st with
    | Some (a, st') => f a st'
    | None => None
    end.

Definition out_of_fuel {A} : M A := fun _ => None.

Local Notation "x <- m ;; k" := (bind m (fun x => k))
  (at level 61, m at next level, right associativity).
Local Notation "m ;; k" := (bind m (fun _ => k))
  (at level 61, right associativity).

Definition get_result : M (Result P Ext) := fun st => Some (result st, st).

(** [m_impl.step(cache)] *)
Definition call_step : M float :=
  fun st =>
    let (adv, c') := step (cache st) in
    Some (adv, {| result := result st; cache := c';
                  log := log st ++ [EvStep adv] |}).

(** [result.pathLength += x] *)
Definition add_pathLength (x : float) : M unit :=
  fun st =>
    let r := result st in
    Some (tt, {| result := set_pathLength r (pathLength r + x)%float;
                 cache := cache st; log := log st |}).

(** [options.action_list(cache, result)] *)
Definition call_actions (a : Actions) : M unit :=
  fun st =>
    let (c', e') := act a (cache st) (extension (result st)) in
    Some (tt, {| result := set_extension (result st) e'; cache := c';
                 log := log st ++ [EvActions] |}).

(** [options.stop_conditions(result, cache)] *)
Definition call_stop_conditions (a : Aborters) : M bool :=
  fun st =>
    let b := abort_check a (result st) (cache st) in
    Some (b, {| result := result st; cache := cache st;
                log := log st ++ [EvUserAbort b] |}).

(** [internal_stop_conditions(result, cache)] *)
Definition call_internal_stop_conditions (ia : IA) : M bool :=
  fun st =>
    let b := abort_check ia (result st) (cache st) in
    Some (b, {| result := result st; cache := cache st;
                log := log st ++ [EvInternalAbort ia b] |}).

(** [++result.steps] *)
Definition incr_steps : M unit :=
  fun st =>
    let r := result st in
    Some (tt, {| result := set_steps r (uint_incr (steps r));
                 cache := cache st; log := log st |}).

(** The built-in [a || b]: [b] is evaluated only when [a] is false. *)
Definition orM (a b : M bool) : M bool :=
  x <- a ;; if x then ret true else b.

(** The body of the [for] loop; the value tells whether it left the loop
    by [break]. *)
Definition loop_body (options : Options Actions Aborters) (ia : IA) : M bool :=
  adv <- call_step ;;
  add_pathLength adv ;;
  call_actions (action_list options) ;;
  stop <- orM (call_stop_conditions (stop_conditions options))
              (call_internal_stop_conditions ia) ;;
  if stop then incr_steps ;; ret true
  else ret false.

(** [for (; result.steps < options.max_steps; ++result.steps) { body }] *)
Fixpoint propagation_loop (fuel : nat)
         (options : Options Actions Aborters) (ia : IA) : M unit :=
  r <- get_result ;;
  if (steps r <? max_steps options)%N then
    match fuel with
    | O => out_of_fuel
    | S fuel' =>
        broke <- loop_body options ia ;;
        if broke then ret tt
        else incr_steps ;; propagation_loop fuel' options ia
    end
  else ret tt.

(** [propagate_(result, cache, options, internal_stop_conditions)].
    The loop runs at most [max_steps] times, which is the fuel. *)
Definition propagate_ (options : Options Actions Aborters) (ia : IA) : M Status :=
  hit <- call_internal_stop_conditions ia ;;
  if hit then ret FAILURE
  else propagation_loop (N.to_nat (max_steps options)) options ia ;;
       ret IN_PROGRESS.

(** The result and cache once the step was taken, its length added and
    the actions were run. *)
Definition stepped (options : Options Actions Aborters) (st : PState)
  : float * Result P Ext * Cache :=
  let (adv, c1) := step (cache st) in
  let (c2, e2) := act (action_list options) c1 (extension (result st)) in
  (adv,
   set_extension
     (set_pathLength (result st) (pathLength (result st) + adv)%float) e2,
   c2).

(** The loop increment [++result.steps] as a state transformer. *)
Definition bump (st : PState) : PState :=
  {| result := set_steps (result st) (uint_incr (steps (result st)));
     cache := cache st; log := log st |}.

(** A reading of the loop body under which both abort lists are called
  whenever both would return true on the state the actions left. *)
Definition both_abort_lists_evaluated
         (options : Options Actions Aborters) (ia : IA) (st : PState) : Prop :=
  forall adv r2 c2 b st',
    stepped options st = (adv, r2, c2) ->
    loop_body options ia st = Some (b, st') ->
    abort_check (stop_conditions options) r2 c2 = true ->
    abort_check ia r2 c2 = true ->
    log st' = log st ++ [EvStep adv; EvActions; EvUserAbort true;
                         EvInternalAbort ia true].

(** The state after the call [internal_stop_conditions(result, cache)]
  returned [b]. *)
Definition checked (ia : IA) (b : bool) (st : PState) : PState :=
  {| result := result st; cache := cache st;
     log := log st ++ [EvInternalAbort ia b] |}.

End Propagate_.

Arguments PState : clear implicits.
Arguments M : clear implicits.

(** ** The public [propagate] overloads *)

(** Default construction of the [Extendable] base of a result. *)
Class Extendable (Ext : Type) : Type := ext_default : Ext.

Section Propagate.

Context {Start Surface Cache Out OutAt : Type}
          {m_impl : Stepper Start Surface Cache Out OutAt}.
Context {Ext Actions Aborters : Type} {ext_init : Extendable Ext}.
Context {actions_call : Actor Actions Cache Ext}.

Section Unconstrained.

Context {aborters_call : Aborter Aborters Cache (Result Out Ext)}
        {path_limit_call : Aborter path_limit_reached Cache (Result Out Ext)}.

(** [propagate(start, options)] *)
Definition propagate (start : Start) (options : Options Actions Aborters)
  : option (Result Out Ext * list (Event Cache Surface path_limit_reached)) :=
  (* Initialize the propagation result object *)
  let result0 := Result_ctor Out ext_default IN_PROGRESS in
  (* Initialize the internal propagation cache *)
  let cache0 :=
    set_step_size (cache_from start)
      (Direction_double (direction options) * max_step_size options)%float in
  (* Internal Abort list, and its configuration *)
  let internal_aborters :=
    {| signed_path_limit :=
         (abs (max_path_length options)
          * Direction_double (direction options))%float;
       pl_tolerance := target_tolerance options |} in
  (* Perform the actual propagation & check its outcome *)
  match propagate_ options internal_aborters
          {| result := result0; cache := cache0; log := [] |} with
  | None => None
  | Some (s, st) =>
      if negb (Status_eqb s IN_PROGRESS) then
        Some (result st, log st)
      else
        let r1 := set_endParameters (result st) (convert (cache st)) in
        Some (set_status r1 SUCCESS, log st ++ [EvConvert (cache st)])
  end.

(** The cache [propagate(start, options)] hands to [propagate_]. *)
Definition start_cache (start : Start) (options : Options Actions Aborters)
  : Cache :=
  set_step_size (cache_from start)
    (Direction_double (direction options) * max_step_size options)%float.

(** The outcome of the check [propagate_] makes first, when called from
    [propagate(start, options)]. *)
Definition initial_check (start : Start) (options : Options Actions Aborters)
  : bool :=
  abort_check
    {| signed_path_limit :=
     (abs (max_path_length options)
      * Direction_double (direction options))%float;
   pl_tolerance := target_tolerance options |}
    (Result_ctor Out ext_default IN_PROGRESS)
    (start_cache start options).

End Unconstrained.

Section SurfaceTargeted.

Context {aborters_call : Aborter Aborters Cache (Result OutAt Ext)}
        {target_call : Aborter (surface_reached Surface) Cache (Result OutAt Ext)}
        {path_limit_call : Aborter path_limit_reached Cache (Result OutAt Ext)}.

(** [propagate(start, target, options)] *)
Definition propagate_to (start : Start) (target : Surface)
           (options : Options Actions Aborters)
  : option (Result OutAt Ext
            * list (Event Cache Surface
                      (surface_reached Surface * path_limit_reached))) :=
  (* Initialize the internal propagation cache *)
  let cache0 :=
    cache_from_sized start
      (Direction_double (direction options) * max_step_size options)%float in
  (* Initialize the propagation result object *)
  let result0 := Result_ctor OutAt ext_default IN_PROGRESS in
  (* Internal Abort list, and the configuration of the aborters *)
  let at_target_abort :=
    {| sr_surface := target;
       sr_direction := direction options;
       sr_tolerance := target_tolerance options |} in
  let path_limit_abort :=
    {| signed_path_limit :=
         (abs (max_path_length options)
          * Direction_double (direction options))%float;
       pl_tolerance := target_tolerance options |} in
  let internal_aborters := (at_target_abort, path_limit_abort) in
  (* Perform the actual propagation *)
  match propagate_ options internal_aborters
          {| result := result0; cache := cache0; log := [] |} with
  | None => None
  | Some (s, st) =>
      if negb (Status_eqb s IN_PROGRESS) then
        Some (result st, log st)
      else
        let r1 := set_endParameters (result st)
                    (convert_to (cache st) target) in
        Some (set_status r1 SUCCESS,
              log st ++ [EvConvertTo (cache st) target])
  end.

(** The cache [propagate(start, target, options)] hands to [propagate_]. *)
Definition start_cache_to (start : Start) (options : Options Actions Aborters)
  : Cache :=
  cache_from_sized start
    (Direction_double (direction options) * max_step_size options)%float.

(** The outcome of the check [propagate_] makes first, when called from
    [propagate(start, target, options)]. *)
Definition initial_check_to (start : Start) (target : Surface)
       (options : Options Actions Aborters) : bool :=
  abort_check
    ({| sr_surface := target;
    sr_direction := direction options;
    sr_tolerance := target_tolerance options |},
     {| signed_path_limit :=
      (abs (max_path_length options)
       * Direction_double (direction options))%float;
    pl_tolerance := target_tolerance options |})
    (Result_ctor OutAt ext_default IN_PROGRESS)
    (start_cache_to start options).

End SurfaceTargeted.

End Propagate.

(** ** A concrete collaborator set: a straight-line stepper

    The smallest stepping implementation that fits the interface, with the
    two internal aborters as the specification describes them. It is used
    to run the propagator on concrete inputs. *)
Module StraightLine.

(** The cache: position along the line, signed step size. *)
Record LineCache : Type := mkLineCache {
  position : float;
  step_size : float
  }.

(** Start parameters are a position; a target surface is the point of the
    line it crosses; final parameters are a position. *)
#[export] Instance line_stepper : Stepper float float LineCache float float := {
  cache_from s := {| position := s; step_size := 0%float |};
  cache_from_sized s h := {| position := s; step_size := h |};
  set_step_size c h := {| position := position c; step_size := h |};
  step c := (step_size c,
             {| position := (position c + step_size c)%float;
                step_size := step_size c |});
  convert c := position c;
  convert_to c target := target
  }.

(** An action that counts its invocations in its result slot. *)
Inductive CountCalls : Type := count_calls.

#[export] Instance count_calls_actor : Actor CountCalls LineCache N :=
  fun _ c n => (c, (n + 1)%N).

#[export] Instance count_calls_default : Extendable N := 0%N.

(** A user aborter: stop once the step being completed is the [n]-th. *)
Record StepBudget : Type := step_budget { budget : N }.

#[export] Instance step_budget_aborter {P} :
  Aborter StepBudget LineCache (Result P N) :=
  fun a r _ => (budget a <=? steps r + 1)%N.

(** Modelled from the spec: path-limit-reached is true when the path
    length already advanced is within [tolerance] of [signed_path_limit],
    or has exceeded it in magnitude. *)
#[export] Instance path_limit_aborter {P} :
  Aborter path_limit_reached LineCache (Result P N) :=
  fun a r _ =>
    ((abs (signed_path_limit a - pathLength r) <=? pl_tolerance a)
     || (abs (signed_path_limit a) <? abs (pathLength r)))%float.

(** Modelled from the spec: surface-reached is true when the distance of
    the current state to the surface is within [tolerance]. *)
#[export] Instance surface_aborter {P} :
  Aborter (surface_reached float) LineCache (Result P N) :=
  fun a _ c => (abs (sr_surface a - position c) <=? sr_tolerance a)%float.

(** Options with no user aborter / with a step budget. *)
Definition plain_options (d : Direction) (n : N) (limit : float)
  : Options CountCalls unit :=
  {| direction := d; max_steps := n; target_tolerance := 0.0009765625%float;
     max_step_size := 1%float; max_path_length := limit;
     action_list := count_calls; stop_conditions := tt |}.

Definition budget_options (d : Direction) (n : N) (limit : float) (b : N)
  : Options CountCalls StepBudget :=
  {| direction := d; max_steps := n; target_tolerance := 0.0009765625%float;
     max_step_size := 1%float; max_path_length := limit;
     action_list := count_calls; stop_conditions := step_budget b |}.

End StraightLine.

(** ** The shape of a call log *)

Section RunShape.

Variables (Cache Surface IA : Type).

Definition is_actions (e : Event Cache Surface IA) : bool :=
  match e with EvActions => true | _ => false end.

Definition is_user_abort (e : Event Cache Surface IA) : bool :=
  match e with EvUserAbort _ => true | _ => false end.

Definition is_internal_abort (e : Event Cache Surface IA) : bool :=
  match e with EvInternalAbort _ _ => true | _ => false end.

(** How many entries of a log satisfy [p]. *)
Definition calls (p : Event Cache Surface IA -> bool)
           (l : list (Event Cache Surface IA)) : nat :=
  length (filter p l).

(** The calls of one pass through the loop body that ends in the loop
    increment: the step, the actions, then both abort lists, neither of
    which returns true. *)
Definition full_pass (ia : IA) (adv : float) : list (Event Cache Surface IA) :=
  [EvStep adv; EvActions; EvUserAbort false; EvInternalAbort ia false].

(** The calls of any number of such passes, one after the other. *)
Inductive quiet (ia : IA) : list (Event Cache Surface IA) -> Prop :=
| quiet_nil : quiet ia []
| quiet_snoc l adv : quiet ia l -> quiet ia (l ++ full_pass ia adv).

(** How the loop is left: by its guard, with no further call; or by
    [break] from a pass in which the user abort list returned true, or in
    which it returned false and the internal abort list returned true. *)
Inductive closing (ia : IA) : list (Event Cache Surface IA) -> Prop :=
| closing_guard : closing ia []
| closing_user adv :
    closing ia [EvStep adv; EvActions; EvUserAbort true]
| closing_internal adv :
    closing ia [EvStep adv; EvActions; EvUserAbort false;
                EvInternalAbort ia true].

End RunShape.

Arguments is_actions {Cache Surface IA} e.
Arguments is_user_abort {Cache Surface IA} e.
Arguments is_internal_abort {Cache Surface IA} e.
Arguments calls {Cache Surface IA} p l.
Arguments full_pass {Cache Surface} {IA} ia adv.

(** [options.max_path_length = x] *)
Definition set_max_path_length {Actions Aborters : Type}
           (o : Options Actions Aborters) (x : float)
  : Options Actions Aborters :=
  {| direction := direction o;
     max_steps := max_steps o;
     target_tolerance := target_tolerance o;
     max_step_size := max_step_size o;
     max_path_length := x;
     action_list := action_list o;
     stop_conditions := stop_conditions o |}.

(** * Properties *)

Unset Implicit Arguments.

(** ** Basic facts *)

Lemma Status_eqb_eq (a b : Status) : Status_eqb a b = true <-> a = b.
Proof. destruct a, b; simpl; split; congruence. Qed.

Lemma uint_incr_small (n : N) : (n + 1 < UINT_MODULUS)%N -> uint_incr n = (n + 1)%N.
Proof. intros H. unfold uint_incr. now apply N.mod_small. Qed.

(** ** Facts about the call log *)

Section CallLogFacts.

Context {Cache Surface IA : Type}.
Implicit Types l : list (Event Cache Surface IA).

Lemma step_calls_app l l' :
    step_calls (l ++ l') = step_calls l + step_calls l'.
Proof. unfold step_calls. now rewrite filter_app, length_app. Qed.

Lemma advances_app l l' : advances (l ++ l') = advances l ++ advances l'.
Proof.
    induction l as [|e l IH]; simpl; [reflexivity|].
    destruct e; simpl; now rewrite ?IH.
Qed.

Lemma float_sum_snoc (xs : list float) (x : float) :
    float_sum (xs ++ [x]) = (float_sum xs + x)%float.
Proof. unfold float_sum. now rewrite fold_left_app. Qed.

Lemma advances_no_step l : step_calls l = 0 -> advances l = [].
Proof.
  unfold step_calls. induction l as [|e l IH]; [reflexivity|].
  destruct e; simpl; auto; discriminate.
Qed.

Lemma step_calls_snoc_other l e :
  is_step e = false -> step_calls (l ++ [e]) = step_calls l.
Proof.
  intros H. rewrite step_calls_app. unfold step_calls at 2. simpl.
  rewrite H. simpl. apply Nat.add_0_r.
Qed.

Lemma advances_snoc_other l e :
  is_step e = false -> advances (l ++ [e]) = advances l.
Proof.
  intros H. rewrite advances_app.
  destruct e; try discriminate; simpl; apply app_nil_r.
Qed.

End CallLogFacts.

(** ** Facts about the stepping loop *)

Section LoopFacts.

Context {Start Surface Cache Out OutAt : Type}
          {m_impl : Stepper Start Surface Cache Out OutAt}.
Context {P Ext Actions Aborters IA : Type}.
Context {actions_call : Actor Actions Cache Ext}
          {aborters_call : Aborter Aborters Cache (Result P Ext)}
          {internal_call : Aborter IA Cache (Result P Ext)}.

Variables (options : Options Actions Aborters) (ia : IA).

Local Abbreviation state := (PState Surface Cache P Ext IA).

(** Symbolic evaluation of one pass through the loop body. *)
Lemma loop_body_eq (st : state) :
    loop_body options ia st =
    let '(adv, r2, c2) := stepped options st in
    let b1 := abort_check (stop_conditions options) r2 c2 in
    let b2 := abort_check ia r2 c2 in
    Some (b1 || b2,
          {| result := if b1 || b2
                       then set_steps r2 (uint_incr (steps r2)) else r2;
             cache := c2;
             log := log st ++ EvStep adv :: EvActions :: EvUserAbort b1
                      :: (if b1 then [] else [EvInternalAbort ia b2]) |}).
Proof.
    unfold loop_body, stepped, orM, bind, call_step, add_pathLength,
      call_actions, call_stop_conditions, call_internal_stop_conditions,
      incr_steps, ret.
    destruct (step (cache st)) as [adv c1]; simpl.
    destruct (act (action_list options) c1 (extension (result st))) as [c2 e2];
      simpl.
    set (r2 := set_extension _ e2).
    destruct (abort_check (stop_conditions options) r2 c2); simpl.
    - now rewrite <- !app_assoc.
    - destruct (abort_check ia r2 c2); simpl; now rewrite <- !app_assoc.
Qed.

Lemma stepped_steps (st : state) adv r2 c2 :
    stepped options st = (adv, r2, c2) -> steps r2 = steps (result st).
Proof.
    unfold stepped. destruct (step (cache st)) as [a c1].
    destruct (act _ c1 _) as [c e]. intros H; inversion H; reflexivity.
Qed.

Lemma loop_body_steps (st st' : state) (b : bool) :
    loop_body options ia st = Some (b, st') ->
    steps (result st') =
    if b then uint_incr (steps (result st)) else steps (result st).
Proof.
    rewrite loop_body_eq.
    destruct (stepped options st) as [[adv r2] c2] eqn:E.
    apply stepped_steps in E. cbv zeta.
    intros H; inversion H; subst; clear H; simpl.
    destruct (_ || _); simpl; now rewrite E.
Qed.

(** The invariant rule of the loop: a property that every pass through
      the body re-establishes (after [++result.steps], which both exits of
      the body perform) holds when the loop is left; and the loop is left. *)
Lemma propagation_loop_invariant (Inv : state -> Prop) :
    Options_wf options ->
    (forall st b st',
        Inv st -> (steps (result st) < max_steps options)%N ->
        loop_body options ia st = Some (b, st') ->
        Inv (if b then st' else bump st')) ->
    forall fuel st,
      Inv st ->
      N.to_nat (max_steps options - steps (result st)) <= fuel ->
      exists st',
        propagation_loop fuel options ia st = Some (tt, st') /\ Inv st'.
Proof.
    intros Hwf Hstep. unfold Options_wf in Hwf.
    induction fuel as [|fuel IH]; intros st HI Hfuel.
    - exists st. simpl. unfold bind, get_result, ret.
      destruct (N.ltb_spec (steps (result st)) (max_steps options)); [lia|].
      now split.
    - simpl. unfold bind at 1. unfold get_result.
      destruct (N.ltb_spec (steps (result st)) (max_steps options)) as [Hlt|Hge].
      + unfold bind at 1.
        destruct (loop_body options ia st) as [[b st1]|] eqn:Hb.
        2:{ rewrite loop_body_eq in Hb.
            destruct (stepped options st) as [[? ?] ?]; discriminate. }
        pose proof (Hstep st b st1 HI Hlt Hb) as HI1.
        pose proof Hb as Hs. apply loop_body_steps in Hs.
        destruct b.
        * exists st1. now split.
        * unfold bind, incr_steps. fold (bump st1).
          apply IH; [exact HI1|].
          simpl. rewrite Hs, uint_incr_small by lia. lia.
      + exists st. now split.
Qed.

(** What one pass through the body does to the log and to the members of
    the result that only the propagator writes. *)
Lemma loop_body_effect (st st' : state) (b : bool) :
  loop_body options ia st = Some (b, st') ->
  exists adv b1 b2,
    log st' = log st ++ EvStep adv :: EvActions :: EvUserAbort b1
                :: (if b1 then [] else [EvInternalAbort ia b2])
    /\ b = b1 || b2
    /\ pathLength (result st') = (pathLength (result st) + adv)%float
    /\ endParameters (result st') = endParameters (result st)
    /\ status (result st') = status (result st).
Proof.
  rewrite loop_body_eq. unfold stepped.
  destruct (step (cache st)) as [adv c1].
  destruct (act (action_list options) c1 (extension (result st))) as [c2 e2].
  cbv zeta. intros H. inversion H; subst; clear H.
  eexists adv, _, _. simpl. split; [reflexivity|]. split; [reflexivity|].
  destruct (_ || _); simpl; auto.
Qed.

Lemma propagate__eq (st : state) :
  propagate_ options ia st =
  if abort_check ia (result st) (cache st)
  then Some (FAILURE, checked ia true st)
  else match propagation_loop (N.to_nat (max_steps options)) options ia
               (checked ia false st) with
       | Some (_, st') => Some (IN_PROGRESS, st')
       | None => None
       end.
Proof.
  unfold propagate_, bind, call_internal_stop_conditions, checked, ret.
  destruct (abort_check ia (result st) (cache st)); [reflexivity|].
  destruct (propagation_loop _ _ _ _) as [[[] st']|]; reflexivity.
Qed.

(** The invariant rule lifted to [propagate_], for a call whose first
    check does not fire. *)
Lemma propagate__invariant (Inv : state -> Prop) (st : state) :
  Options_wf options ->
  (forall st b st',
      Inv st -> (steps (result st) < max_steps options)%N ->
      loop_body options ia st = Some (b, st') ->
      Inv (if b then st' else bump st')) ->
  abort_check ia (result st) (cache st) = false ->
  Inv (checked ia false st) ->
  exists st',
    propagate_ options ia st = Some (IN_PROGRESS, st') /\ Inv st'.
Proof.
  intros Hwf Hstep Hchk HI. rewrite propagate__eq, Hchk.
  destruct (propagation_loop_invariant Inv Hwf Hstep
              (N.to_nat (max_steps options)) (checked ia false st) HI)
    as (st' & Hrun & HI'); [simpl; lia|].
  exists st'. now rewrite Hrun.
Qed.

(** Step and path accounting: the step counter equals the number of
    [step] calls in the log, the path length is the sum of what they
    returned, and the loop writes neither the final parameters nor the
    status. *)
Lemma propagate__accounting (st : state) :
  Options_wf options ->
  abort_check ia (result st) (cache st) = false ->
  steps (result st) = N.of_nat (step_calls (log st)) ->
  pathLength (result st) = float_sum (advances (log st)) ->
  exists st',
    propagate_ options ia st = Some (IN_PROGRESS, st')
    /\ steps (result st') = N.of_nat (step_calls (log st'))
    /\ pathLength (result st') = float_sum (advances (log st'))
    /\ endParameters (result st') = endParameters (result st)
    /\ status (result st') = status (result st).
Proof.
  intros Hwf Hchk Hs Hp.
  apply (propagate__invariant
           (fun s => steps (result s) = N.of_nat (step_calls (log s))
                     /\ pathLength (result s) = float_sum (advances (log s))
                     /\ endParameters (result s) = endParameters (result st)
                     /\ status (result s) = status (result st)));
    [exact Hwf| |exact Hchk|].
  - intros s b s' (Is & Ip & Ie & Ist) Hlt Hb.
    destruct (loop_body_effect _ _ _ Hb)
      as (adv & b1 & b2 & Hlog & _ & Hpl & Hep & Hst).
    apply loop_body_steps in Hb. unfold Options_wf in Hwf.
    assert (Hcalls : step_calls (log s') = S (step_calls (log s))).
    { rewrite Hlog, step_calls_app, Nat.add_comm. destruct b1; reflexivity. }
    assert (Hadv : advances (log s') = advances (log s) ++ [adv]).
    { rewrite Hlog, advances_app. destruct b1; reflexivity. }
    assert (Hinc : uint_incr (steps (result s)) = (steps (result s) + 1)%N)
      by (apply uint_incr_small; lia).
    destruct b; simpl; rewrite Hb, ?Hinc, Hcalls, Hadv, float_sum_snoc, Hpl,
      <- Ip, Is, Hep, Hst; repeat split; auto; lia.
  - simpl. rewrite step_calls_app, advances_app, app_nil_r; simpl.
    rewrite Nat.add_0_r. auto.
Qed.

(** Shape of the log: [propagate_] first calls the internal abort list;
    every later call of an internal abort list is a call of the same
    list, and [propagate_] converts nothing. *)
Lemma propagate__log_shape (st : state) :
  Options_wf options ->
  abort_check ia (result st) (cache st) = false ->
  exists st' rest,
    propagate_ options ia st = Some (IN_PROGRESS, st')
    /\ log st' = log st ++ EvInternalAbort ia false :: rest
    /\ Forall (fun e => checks_with ia e /\ is_convert e = false) rest.
Proof.
  intros Hwf Hchk.
  destruct (propagate__invariant
              (fun s => exists rest,
                   log s = log st ++ EvInternalAbort ia false :: rest
                   /\ Forall (fun e => checks_with ia e
                                       /\ is_convert e = false) rest)
              st Hwf) as (st' & Hrun & rest & Hlog & Hall).
  - intros s b s' (rest & Hl & Hall) _ Hb.
    destruct (loop_body_effect _ _ _ Hb) as (adv & b1 & b2 & Hlog & _).
    exists (rest ++ EvStep adv :: EvActions :: EvUserAbort b1
                 :: (if b1 then [] else [EvInternalAbort ia b2])).
    split.
    + replace (log (if b then s' else bump s')) with (log s')
        by (destruct b; reflexivity).
      rewrite Hlog, Hl, <- app_assoc. reflexivity.
    + apply Forall_app. split; [exact Hall|].
      destruct b1; repeat constructor.
  - exact Hchk.
  - exists []. split; [reflexivity|constructor].
  - now exists st', rest.
Qed.

(** C3. [propagate_] returns FAILURE exactly when the internal aborters
    are true on the state it is called with, and then it has done nothing
    but that check: no step was taken, result and cache are as they were.
    In every other case the loop is left, whichever way, and [propagate_]
    returns IN_PROGRESS. *)
Theorem propagate__status (st : state) :
  Options_wf options ->
  exists s st',
    propagate_ options ia st = Some (s, st')
    /\ (s = FAILURE <-> abort_check ia (result st) (cache st) = true)
    /\ (abort_check ia (result st) (cache st) = false -> s = IN_PROGRESS)
    /\ (s = FAILURE -> st' = checked ia true st).
Proof.
  intros Hwf.
  destruct (abort_check ia (result st) (cache st)) eqn:Hchk.
  - exists FAILURE, (checked ia true st).
    rewrite propagate__eq, Hchk. repeat split; auto; discriminate.
  - destruct (propagate__invariant (fun _ => True) st Hwf) as (st' & Hrun & _);
      auto.
    exists IN_PROGRESS, st'. rewrite Hrun.
    repeat split; auto; discriminate.
Qed.

(** C5 (amended). In each pass through the loop body, once the step is
    taken and the actions have run, the user abort list is called first,
    on the result and cache the actions left; the internal abort list is
    called next, on the same result and cache, exactly when the user
    list returned false; and the body leaves the loop exactly when one of
    the two calls returned true. *)
Theorem loop_body_abort_order (st : state) :
  exists adv r2 c2 st',
    stepped options st = (adv, r2, c2)
    /\ loop_body options ia st =
       Some (abort_check (stop_conditions options) r2 c2
             || abort_check ia r2 c2, st')
    /\ log st' =
       log st ++ EvStep adv :: EvActions
         :: EvUserAbort (abort_check (stop_conditions options) r2 c2)
         :: (if abort_check (stop_conditions options) r2 c2 then []
             else [EvInternalAbort ia (abort_check ia r2 c2)]).
Proof.
  pose proof (loop_body_eq st) as H.
  destruct (stepped options st) as [[adv r2] c2].
  cbv zeta in H. eexists adv, r2, c2, _.
  split; [reflexivity|]. split; [exact H|reflexivity].
Qed.

End LoopFacts.

(** ** Facts about the two [propagate] overloads *)

Section PropagateFacts.

Context {Start Surface Cache Out OutAt : Type}
        {m_impl : Stepper Start Surface Cache Out OutAt}.
Context {Ext Actions Aborters : Type} {ext_init : Extendable Ext}.
Context {actions_call : Actor Actions Cache Ext}.
Context {aborters_call : Aborter Aborters Cache (Result Out Ext)}
        {path_limit_call : Aborter path_limit_reached Cache (Result Out Ext)}.
Context {aborters_call_to : Aborter Aborters Cache (Result OutAt Ext)}
        {target_call : Aborter (surface_reached Surface) Cache (Result OutAt Ext)}
        {path_limit_call_to : Aborter path_limit_reached Cache (Result OutAt Ext)}.

Variables (start : Start) (target : Surface)
          (options : Options Actions Aborters).

(** The internal abort lists the two overloads configure. *)
Local Abbreviation path_limit_abort :=
  {| signed_path_limit :=
       (abs (max_path_length options)
        * Direction_double (direction options))%float;
     pl_tolerance := target_tolerance options |}.

Local Abbreviation at_target_abort :=
  {| sr_surface := target;
     sr_direction := direction options;
     sr_tolerance := target_tolerance options |}.

Local Abbreviation entry :=
  {| result := Result_ctor Out ext_default IN_PROGRESS;
     cache := start_cache start options;
     log := @nil (Event Cache Surface path_limit_reached) |}.

Local Abbreviation entry_to :=
  {| result := Result_ctor OutAt ext_default IN_PROGRESS;
     cache := start_cache_to start options;
     log := @nil (Event Cache Surface
                    (surface_reached Surface * path_limit_reached)) |}.

(** When the first check fires, [propagate] returns the result object as
    it was constructed. *)
Lemma propagate_failure :
  initial_check start options = true ->
  propagate start options =
  Some (Result_ctor Out ext_default IN_PROGRESS,
        [EvInternalAbort path_limit_abort true]).
Proof.
  unfold initial_check, start_cache, propagate. intros H. cbv zeta.
  rewrite propagate__eq. cbn [result cache]. rewrite H. reflexivity.
Qed.

Lemma propagate_to_failure :
  initial_check_to start target options = true ->
  propagate_to start target options =
  Some (Result_ctor OutAt ext_default IN_PROGRESS,
        [EvInternalAbort (at_target_abort, path_limit_abort) true]).
Proof.
  unfold initial_check_to, start_cache_to, propagate_to. intros H. cbv zeta.
  rewrite propagate__eq. cbn [result cache]. rewrite H. reflexivity.
Qed.

(** When [propagate_] returns IN_PROGRESS, [propagate] converts the cache
    the loop left and marks the result as a success. *)
Lemma propagate_success st' :
  propagate_ options path_limit_abort entry = Some (IN_PROGRESS, st') ->
  propagate start options =
  Some (set_status (set_endParameters (result st') (convert (cache st')))
          SUCCESS,
        log st' ++ [EvConvert (cache st')]).
Proof. unfold propagate, start_cache. intros H. cbv zeta. now rewrite H. Qed.

Lemma propagate_to_success st' :
  propagate_ options (at_target_abort, path_limit_abort) entry_to
  = Some (IN_PROGRESS, st') ->
  propagate_to start target options =
  Some (set_status
          (set_endParameters (result st') (convert_to (cache st') target))
          SUCCESS,
        log st' ++ [EvConvertTo (cache st') target]).
Proof.
  unfold propagate_to, start_cache_to. intros H. cbv zeta. now rewrite H.
Qed.

(** C1 (amended). For every call to [propagate], either overload, whose
    initial internal-aborter check does not fire, the call returns and
    [result.steps] equals the number of times [step(cache)] was invoked,
    whichever way the loop was left. *)
Theorem propagate_steps_counted :
  Options_wf options ->
  (initial_check start options = false ->
   exists r l,
     propagate start options = Some (r, l)
     /\ steps r = N.of_nat (step_calls l))
  /\ (initial_check_to start target options = false ->
      exists r l,
        propagate_to start target options = Some (r, l)
        /\ steps r = N.of_nat (step_calls l)).
Proof.
  intros Hwf. split; intros Hchk.
  - destruct (propagate__accounting options path_limit_abort entry Hwf Hchk
                eq_refl eq_refl) as (st' & Hrun & Hs & _).
    eexists _, _. split; [exact (propagate_success st' Hrun)|].
    now rewrite step_calls_snoc_other.
  - destruct (propagate__accounting options (at_target_abort, path_limit_abort)
                entry_to Hwf Hchk eq_refl eq_refl) as (st' & Hrun & Hs & _).
    eexists _, _. split; [exact (propagate_to_success st' Hrun)|].
    now rewrite step_calls_snoc_other.
Qed.

(** C9. For every call that does not hit the immediate-failure
    precondition, the call returns and [result.pathLength] is the sum,
    accumulated in double precision from zero in call order, of the values
    the calls of [step(cache)] returned; it is zero when no step was
    executed. *)
Theorem propagate_pathLength_sum :
  Options_wf options ->
  (initial_check start options = false ->
   exists r l,
     propagate start options = Some (r, l)
     /\ pathLength r = float_sum (advances l)
     /\ (step_calls l = 0 -> pathLength r = 0%float))
  /\ (initial_check_to start target options = false ->
      exists r l,
        propagate_to start target options = Some (r, l)
        /\ pathLength r = float_sum (advances l)
        /\ (step_calls l = 0 -> pathLength r = 0%float)).
Proof.
  intros Hwf. split; intros Hchk.
  - destruct (propagate__accounting options path_limit_abort entry Hwf Hchk
                eq_refl eq_refl) as (st' & Hrun & _ & Hp & _).
    eexists _, _. split; [exact (propagate_success st' Hrun)|].
    rewrite advances_snoc_other by reflexivity. split; [exact Hp|].
    rewrite step_calls_snoc_other by reflexivity. intros H0.
    simpl. now rewrite Hp, (advances_no_step _ H0).
  - destruct (propagate__accounting options (at_target_abort, path_limit_abort)
                entry_to Hwf Hchk eq_refl eq_refl) as (st' & Hrun & _ & Hp & _).
    eexists _, _. split; [exact (propagate_to_success st' Hrun)|].
    rewrite advances_snoc_other by reflexivity. split; [exact Hp|].
    rewrite step_calls_snoc_other by reflexivity. intros H0.
    simpl. now rewrite Hp, (advances_no_step _ H0).
Qed.

(** C10. When the initial internal-aborter check fires, in either
    overload, [step] is never invoked and the returned result has
    [steps == 0], [pathLength == 0] and no final parameters. *)
Theorem propagate_failure_untouched :
  (initial_check start options = true ->
   exists r l,
     propagate start options = Some (r, l)
     /\ step_calls l = 0
     /\ steps r = 0%N /\ pathLength r = 0%float /\ endParameters r = None)
  /\ (initial_check_to start target options = true ->
      exists r l,
        propagate_to start target options = Some (r, l)
        /\ step_calls l = 0
        /\ steps r = 0%N /\ pathLength r = 0%float
        /\ endParameters r = None).
Proof.
  split; intros Hchk.
  - eexists _, _. split; [exact (propagate_failure Hchk)|].
    repeat split.
  - eexists _, _. split; [exact (propagate_to_failure Hchk)|].
    repeat split.
Qed.

(** C6. With [max_steps == 0] and an initial check that does not fire,
    the loop body never executes: the only calls made are the initial
    check and the conversion, the conversion is that of the cache as it
    was built from the start parameters, and the returned result has
    [steps == 0], [pathLength == 0], the converted parameters and status
    SUCCESS. *)
Theorem propagate_zero_max_steps :
  max_steps options = 0%N ->
  (initial_check start options = false ->
   propagate start options =
   Some ({| endParameters := Some (convert (start_cache start options));
            status := SUCCESS;
            steps := 0%N;
            pathLength := 0%float;
            extension := ext_default |},
         [EvInternalAbort path_limit_abort false;
          EvConvert (start_cache start options)]))
  /\ (initial_check_to start target options = false ->
      propagate_to start target options =
      Some ({| endParameters :=
                 Some (convert_to (start_cache_to start options) target);
               status := SUCCESS;
               steps := 0%N;
               pathLength := 0%float;
               extension := ext_default |},
            [EvInternalAbort (at_target_abort, path_limit_abort) false;
             EvConvertTo (start_cache_to start options) target])).
Proof.
  intros H0. split; intros Hchk.
  - unfold initial_check in Hchk.
    rewrite (propagate_success (checked path_limit_abort false entry));
      [reflexivity|].
    rewrite propagate__eq. cbn [result cache]. rewrite Hchk, H0.
    cbn. rewrite H0. reflexivity.
  - unfold initial_check_to in Hchk.
    rewrite (propagate_to_success
               (checked (at_target_abort, path_limit_abort) false entry_to));
      [reflexivity|].
    rewrite propagate__eq. cbn [result cache]. rewrite Hchk, H0.
    cbn. rewrite H0. reflexivity.
Qed.

(** C7. The unconstrained [propagate(start, options)] calls, before
    anything else, an internal abort list that consists of the
    path-limit-reached aborter alone, with
    [signed_path_limit = |max_path_length| * direction] and
    [tolerance = target_tolerance]; every later call of the internal
    abort list is a call of that same list. *)
Theorem propagate_internal_aborters :
  Options_wf options ->
  exists r b rest,
    propagate start options =
    Some (r,
          EvInternalAbort
            {| signed_path_limit :=
                 (abs (max_path_length options)
                  * Direction_double (direction options))%float;
               pl_tolerance := target_tolerance options |} b :: rest)
    /\ b = initial_check start options
    /\ Forall
         (checks_with
            {| signed_path_limit :=
                 (abs (max_path_length options)
                  * Direction_double (direction options))%float;
               pl_tolerance := target_tolerance options |}) rest.
Proof.
  intros Hwf. destruct (initial_check start options) eqn:Hchk.
  - exists (Result_ctor Out ext_default IN_PROGRESS), true, [].
    split; [exact (propagate_failure Hchk)|]. split; [reflexivity|constructor].
  - destruct (propagate__log_shape options path_limit_abort entry Hwf Hchk)
      as (st' & rest & Hrun & Hlog & Hall).
    eexists _, false, (rest ++ [EvConvert (cache st')]).
    split; [|split; [reflexivity|]].
    + rewrite (propagate_success st' Hrun), Hlog. reflexivity.
    + apply Forall_app. split.
      * eapply Forall_impl; [|exact Hall]. now intros e [He _].
      * repeat constructor.
Qed.

(** C8. The surface-targeted [propagate(start, target, options)] calls,
    before anything else, an internal abort list of two aborters: first
    surface-reached, holding [target], the propagation direction and
    [target_tolerance], then path-limit-reached; the list tests them in
    that order and ORs them, and every later call of the internal abort
    list is a call of that same list. When the initial check does not
    fire, the last call is [convert(cache, target)] on the cache the loop
    left, no other conversion is made, and its value becomes the final
    parameters of a result with status SUCCESS. *)
Theorem propagate_to_internal_aborters :
  Options_wf options ->
  exists r b rest,
    propagate_to start target options =
    Some (r,
          EvInternalAbort
            ({| sr_surface := target;
                sr_direction := direction options;
                sr_tolerance := target_tolerance options |},
             {| signed_path_limit :=
                  (abs (max_path_length options)
                   * Direction_double (direction options))%float;
                pl_tolerance := target_tolerance options |}) b :: rest)
    /\ b = initial_check_to start target options
    /\ Forall (checks_with (at_target_abort, path_limit_abort)) rest
    /\ (forall (r' : Result OutAt Ext) (c : Cache),
          abort_check (at_target_abort, path_limit_abort) r' c
          = abort_check at_target_abort r' c
            || abort_check path_limit_abort r' c)
    /\ (b = false ->
        exists c mid,
          rest = mid ++ [EvConvertTo c target]
          /\ Forall (fun e => is_convert e = false) mid
          /\ endParameters r = Some (convert_to c target)
          /\ status r = SUCCESS).
Proof.
  intros Hwf. destruct (initial_check_to start target options) eqn:Hchk.
  - exists (Result_ctor OutAt ext_default IN_PROGRESS), true, [].
    split; [exact (propagate_to_failure Hchk)|].
    repeat split; try constructor. discriminate.
  - destruct (propagate__log_shape options (at_target_abort, path_limit_abort)
                entry_to Hwf Hchk) as (st' & rest & Hrun & Hlog & Hall).
    eexists _, false, (rest ++ [EvConvertTo (cache st') target]).
    split; [|split; [reflexivity|split; [|split]]].
    + rewrite (propagate_to_success st' Hrun), Hlog. reflexivity.
    + apply Forall_app. split.
      * eapply Forall_impl; [|exact Hall]. now intros e [He _].
      * repeat constructor.
    + reflexivity.
    + intros _. exists (cache st'), rest. repeat split.
      eapply Forall_impl; [|exact Hall]. now intros e [_ He].
Qed.

(** C2 (what the code does instead). When the initial internal-aborter
    check fires, [propagate_] returns FAILURE, the caller drops that
    value, and the result comes back with the status it was constructed
    with: IN_PROGRESS. *)
Theorem propagate_failure_status :
  (initial_check start options = true ->
   exists r l,
     propagate start options = Some (r, l) /\ status r = IN_PROGRESS)
  /\ (initial_check_to start target options = true ->
      exists r l,
        propagate_to start target options = Some (r, l)
        /\ status r = IN_PROGRESS).
Proof.
  split; intros Hchk.
  - eexists _, _. split; [exact (propagate_failure Hchk)|reflexivity].
  - eexists _, _. split; [exact (propagate_to_failure Hchk)|reflexivity].
Qed.

End PropagateFacts.

(** ** Validity of a result *)

(** C4. The validity test of a result is true exactly when the final
    parameters are present and the status is SUCCESS; it is false
    whenever the status is FAILURE, UNSET or IN_PROGRESS. *)
Theorem isValid_iff (P Ext : Type) (r : Result P Ext) :
  (isValid r = true <-> endParameters r <> None /\ status r = SUCCESS)
  /\ (status r = FAILURE \/ status r = UNSET \/ status r = IN_PROGRESS ->
      isValid r = false).
Proof.
  unfold isValid. split; [split|].
  - intros H. apply andb_true_iff in H. destruct H as [Hp Hs].
    apply Status_eqb_eq in Hs. split; [|exact Hs].
    destruct (endParameters r); [discriminate|discriminate Hp].
  - intros [Hp Hs]. rewrite Hs. destruct (endParameters r); [reflexivity|].
    now elim Hp.
  - intros [H|[H|H]]; rewrite H; apply andb_false_r.
Qed.

(** ** Runs of the straight-line propagator *)

Import StraightLine.

(** Scenario A: three steps of length one, no aborter fires. *)
Example scenario_A :
  propagate 0%float (plain_options forward 3 100)
  = Some ({| endParameters := Some 3%float; status := SUCCESS; steps := 3%N;
             pathLength := 3%float; extension := 3%N |},
          [EvInternalAbort (mk_path_limit_reached 100 0.0009765625) false;
           EvStep 1; EvActions; EvUserAbort false;
           EvInternalAbort (mk_path_limit_reached 100 0.0009765625) false;
           EvStep 1; EvActions; EvUserAbort false;
           EvInternalAbort (mk_path_limit_reached 100 0.0009765625) false;
           EvStep 1; EvActions; EvUserAbort false;
           EvInternalAbort (mk_path_limit_reached 100 0.0009765625) false;
           EvConvert (mkLineCache 3 1)]).
Proof. vm_compute. reflexivity. Qed.

(** C1, as stated, fails: with a user aborter that fires on the first
    step the loop is left by [break] before [max_steps] is reached, [step]
    was invoked once, and [result.steps] is one, not two. *)
Lemma propagate_steps_break_counterexample :
  exists r l,
    propagate 0%float (budget_options forward 3 100 1) = Some (r, l)
    /\ initial_check 0%float (budget_options forward 3 100 1) = false
    /\ broke l = true
    /\ (steps r < max_steps (budget_options forward 3 100 1))%N
    /\ step_calls l = 1
    /\ steps r <> (N.of_nat (step_calls l) + 1)%N.
Proof.
  eexists _, _. split; [vm_compute; reflexivity|].
  repeat split; try (vm_compute; reflexivity).
  vm_compute. discriminate.
Qed.

Lemma propagate_steps_counted_witness :
  Options_wf (budget_options forward 3 100 2)
  /\ initial_check 0%float (budget_options forward 3 100 2) = false
  /\ initial_check_to 0%float 5%float (budget_options forward 3 100 2) = false
  /\ (exists r l,
        propagate 0%float (budget_options forward 3 100 2) = Some (r, l)
        /\ steps r = N.of_nat (step_calls l))
  /\ (exists r l,
        propagate_to 0%float 5%float (budget_options forward 3 100 2)
        = Some (r, l)
        /\ steps r = N.of_nat (step_calls l)).
Proof.
  assert (Hwf : Options_wf (budget_options forward 3 100 2))
    by (vm_compute; reflexivity).
  split; [exact Hwf|].
  split; [vm_compute; reflexivity|].
  split; [vm_compute; reflexivity|].
  destruct (propagate_steps_counted 0%float 5%float
              (budget_options forward 3 100 2) Hwf) as [H1 H2].
  split; [apply H1|apply H2]; vm_compute; reflexivity.
Defined.

Lemma propagate_pathLength_sum_witness :
  Options_wf (plain_options backward 10 2.5)
  /\ initial_check 0%float (plain_options backward 10 2.5) = false
  /\ initial_check_to 0%float (-2)%float (plain_options backward 10 2.5) = false
  /\ (exists r l,
        propagate 0%float (plain_options backward 10 2.5) = Some (r, l)
        /\ pathLength r = float_sum (advances l)
        /\ (step_calls l = 0 -> pathLength r = 0%float))
  /\ (exists r l,
        propagate_to 0%float (-2)%float (plain_options backward 10 2.5)
        = Some (r, l)
        /\ pathLength r = float_sum (advances l)
        /\ (step_calls l = 0 -> pathLength r = 0%float)).
Proof.
  assert (Hwf : Options_wf (plain_options backward 10 2.5))
    by (vm_compute; reflexivity).
  split; [exact Hwf|].
  split; [vm_compute; reflexivity|].
  split; [vm_compute; reflexivity|].
  destruct (propagate_pathLength_sum 0%float (-2)%float
              (plain_options backward 10 2.5) Hwf) as [H1 H2].
  split; [apply H1|apply H2]; vm_compute; reflexivity.
Defined.

Lemma propagate_failure_untouched_witness :
  initial_check 0%float (plain_options forward 3 0) = true
  /\ initial_check_to 2%float 2%float (plain_options forward 3 100) = true
  /\ (exists r l,
        propagate 0%float (plain_options forward 3 0) = Some (r, l)
        /\ step_calls l = 0
        /\ steps r = 0%N /\ pathLength r = 0%float /\ endParameters r = None)
  /\ (exists r l,
        propagate_to 2%float 2%float (plain_options forward 3 100)
        = Some (r, l)
        /\ step_calls l = 0
        /\ steps r = 0%N /\ pathLength r = 0%float /\ endParameters r = None).
Proof.
  split; [vm_compute; reflexivity|].
  split; [vm_compute; reflexivity|].
  split.
  - apply (proj1 (propagate_failure_untouched 0%float 2%float
                    (plain_options forward 3 0))).
    vm_compute; reflexivity.
  - apply (proj2 (propagate_failure_untouched 2%float 2%float
                    (plain_options forward 3 100))).
    vm_compute; reflexivity.
Defined.

Lemma propagate_failure_status_witness :
  initial_check 0%float (plain_options forward 3 0) = true
  /\ initial_check_to 2%float 2%float (plain_options forward 3 100) = true
  /\ (exists r l,
        propagate 0%float (plain_options forward 3 0) = Some (r, l)
        /\ status r = IN_PROGRESS)
  /\ (exists r l,
        propagate_to 2%float 2%float (plain_options forward 3 100)
        = Some (r, l)
        /\ status r = IN_PROGRESS).
Proof.
  split; [vm_compute; reflexivity|].
  split; [vm_compute; reflexivity|].
  split.
  - apply (proj1 (propagate_failure_status 0%float 2%float
                    (plain_options forward 3 0))).
    vm_compute; reflexivity.
  - apply (proj2 (propagate_failure_status 2%float 2%float
                    (plain_options forward 3 100))).
    vm_compute; reflexivity.
Defined.

Lemma propagate__status_witness :
  Options_wf (plain_options forward 3 100)
  /\ exists s st',
      propagate_ (plain_options forward 3 100)
        (mk_path_limit_reached 100 0.0009765625)
        {| result := Result_ctor float 0%N IN_PROGRESS;
           cache := mkLineCache 0 1;
           log := @nil (Event LineCache float path_limit_reached) |}
      = Some (s, st')
      /\ (s = FAILURE <->
          abort_check (mk_path_limit_reached 100 0.0009765625)
            (Result_ctor float 0%N IN_PROGRESS) (mkLineCache 0 1) = true)
      /\ (abort_check (mk_path_limit_reached 100 0.0009765625)
            (Result_ctor float 0%N IN_PROGRESS) (mkLineCache 0 1) = false ->
          s = IN_PROGRESS)
      /\ (s = FAILURE ->
          st' = checked (mk_path_limit_reached 100 0.0009765625) true
                  {| result := Result_ctor float 0%N IN_PROGRESS;
                     cache := mkLineCache 0 1;
                     log := @nil (Event LineCache float path_limit_reached) |}).
Proof.
  assert (Hwf : Options_wf (plain_options forward 3 100))
    by (vm_compute; reflexivity).
  split; [exact Hwf|].
  exact (propagate__status (plain_options forward 3 100)
           (mk_path_limit_reached 100 0.0009765625)
           {| result := Result_ctor float 0%N IN_PROGRESS;
              cache := mkLineCache 0 1;
              log := @nil (Event LineCache float path_limit_reached) |} Hwf).
Defined.

Lemma isValid_iff_witness :
  status (Result_ctor float 0%N IN_PROGRESS) = IN_PROGRESS
  /\ isValid (Result_ctor float 0%N IN_PROGRESS) = false.
Proof.
  split; [reflexivity|].
  apply (proj2 (isValid_iff float N (Result_ctor float 0%N IN_PROGRESS))).
  right; right; reflexivity.
Defined.

Lemma propagate_zero_max_steps_witness :
  max_steps (plain_options forward 0 100) = 0%N
  /\ initial_check 0%float (plain_options forward 0 100) = false
  /\ initial_check_to 0%float 2%float (plain_options forward 0 100) = false
  /\ propagate 0%float (plain_options forward 0 100)
     = Some ({| endParameters := Some 0%float; status := SUCCESS;
                steps := 0%N; pathLength := 0%float; extension := 0%N |},
             [EvInternalAbort (mk_path_limit_reached 100 0.0009765625) false;
              EvConvert (mkLineCache 0 1)])
  /\ propagate_to 0%float 2%float (plain_options forward 0 100)
     = Some ({| endParameters := Some 2%float; status := SUCCESS;
                steps := 0%N; pathLength := 0%float; extension := 0%N |},
             [EvInternalAbort
                (mk_surface_reached 2%float forward 0.0009765625,
                 mk_path_limit_reached 100 0.0009765625) false;
              EvConvertTo (mkLineCache 0 1) 2%float]).
Proof.
  split; [reflexivity|].
  split; [vm_compute; reflexivity|].
  split; [vm_compute; reflexivity|].
  destruct (propagate_zero_max_steps 0%float 2%float
              (plain_options forward 0 100) eq_refl) as [H1 H2].
  split; [apply H1|apply H2]; vm_compute; reflexivity.
Defined.

Lemma propagate_internal_aborters_witness :
  Options_wf (plain_options backward 10 2.5)
  /\ exists r b rest,
      propagate 0%float (plain_options backward 10 2.5)
      = Some (r, EvInternalAbort (mk_path_limit_reached (-2.5) 0.0009765625) b
                   :: rest)
      /\ b = initial_check 0%float (plain_options backward 10 2.5)
      /\ Forall (checks_with (mk_path_limit_reached (-2.5) 0.0009765625)) rest.
Proof.
  assert (Hwf : Options_wf (plain_options backward 10 2.5))
    by (vm_compute; reflexivity).
  split; [exact Hwf|].
  exact (propagate_internal_aborters 0%float
           (plain_options backward 10 2.5) Hwf).
Defined.

Lemma propagate_to_internal_aborters_witness :
  Options_wf (plain_options forward 5 100)
  /\ exists r b rest,
      propagate_to 0%float 2%float (plain_options forward 5 100)
      = Some (r, EvInternalAbort
                   (mk_surface_reached 2%float forward 0.0009765625,
                    mk_path_limit_reached 100 0.0009765625) b :: rest)
      /\ b = false
      /\ exists c mid,
          rest = mid ++ [EvConvertTo c 2%float]
          /\ endParameters r = Some (convert_to c 2%float)
          /\ status r = SUCCESS.
Proof.
  assert (Hwf : Options_wf (plain_options forward 5 100))
    by (vm_compute; reflexivity).
  split; [exact Hwf|].
  destruct (propagate_to_internal_aborters 0%float 2%float
              (plain_options forward 5 100) Hwf)
    as (r & b & rest & Hrun & Hb & _ & _ & Hconv).
  assert (Hb' : b = false) by (rewrite Hb; vm_compute; reflexivity).
  destruct (Hconv Hb') as (c & mid & Hrest & _ & Hend & Hst).
  exists r, b, rest. split; [exact Hrun|]. split; [exact Hb'|].
  exists c, mid. repeat split; assumption.
Defined.

(** C5, as stated, fails: on the first step of this run the user abort
    list and the internal abort list would both return true, and the
    internal abort list is not called. *)
Lemma both_abort_lists_evaluated_counterexample :
  ~ both_abort_lists_evaluated (budget_options forward 3 1 1)
      (mk_path_limit_reached 1 0.0009765625)
      {| result := Result_ctor float 0%N IN_PROGRESS;
         cache := mkLineCache 0 1;
         log := [EvInternalAbort (Cache := LineCache) (Surface := float)
                   (mk_path_limit_reached 1 0.0009765625) false] |}.
Proof.
  intros H.
  specialize (H 1%float
                {| endParameters := None; status := IN_PROGRESS; steps := 0%N;
                   pathLength := 1%float; extension := 1%N |}
                (mkLineCache 1 1) true
                {| result :=
                     {| endParameters := None; status := IN_PROGRESS;
                        steps := 1%N; pathLength := 1%float;
                        extension := 1%N |};
                   cache := mkLineCache 1 1;
                   log := [EvInternalAbort
                             (mk_path_limit_reached 1 0.0009765625) false;
                           EvStep 1; EvActions; EvUserAbort true] |}).
  assert (Hlog : log _ = _ ++ _)
    by (apply H; vm_compute; reflexivity).
  vm_compute in Hlog. discriminate Hlog.
Qed.

(** The sum in [pathLength] is the double-precision one, taken in call
    order: the same advances in another order can add up differently. *)
Remark float_sum_call_order :
  float_sum [1e16; 1; -1e16]%float = 0%float
  /\ float_sum [1e16; -1e16; 1]%float = 1%float.
Proof. split; vm_compute; reflexivity. Qed.

(** ** The shape of a run *)

Section CallShapeFacts.

Context {Cache Surface IA : Type}.
Implicit Types l q : list (Event Cache Surface IA).

Lemma calls_app p l l' : calls p (l ++ l') = calls p l + calls p l'.
Proof. unfold calls. now rewrite filter_app, length_app. Qed.

Lemma broke_app l l' : broke (l ++ l') = broke l || broke l'.
Proof. apply existsb_app. Qed.

Lemma quiet_not_broke (ia : IA) q : quiet ia q -> broke q = false.
Proof.
  induction 1 as [|l adv _ IH]; [reflexivity|].
  now rewrite broke_app, IH.
Qed.

Lemma quiet_calls (ia : IA) q :
  quiet ia q ->
  calls is_actions q = step_calls q /\ calls is_user_abort q = step_calls q.
Proof.
  induction 1 as [|l adv _ [IHa IHu]]; [split; reflexivity|].
  rewrite !calls_app, step_calls_app, IHa, IHu. split; reflexivity.
Qed.

Lemma closing_calls (ia : IA) l :
  closing ia l ->
  calls is_actions l = step_calls l /\ calls is_user_abort l = step_calls l.
Proof. destruct 1; split; reflexivity. Qed.

Lemma closing_broke (ia : IA) l : closing ia l -> broke l = false -> l = [].
Proof. destruct 1; [reflexivity|discriminate|discriminate]. Qed.

(** A call that returned true, in a log that starts with calls that did
    not, lies behind them. *)
Lemma fired_behind l l' l1 e l2 :
  broke l = false ->
  l ++ l' = l1 ++ e :: l2 ->
  abort_fired e = true ->
  exists l1', l' = l1' ++ e :: l2.
Proof.
  revert l1. induction l as [|a l IH]; intros l1 Hq Heq He.
  - now exists l1.
  - simpl in Hq. apply orb_false_iff in Hq. destruct Hq as [Ha Hq].
    destruct l1 as [|x l1]; simpl in Heq; inversion Heq; subst.
    + congruence.
    + now apply (IH l1).
Qed.

End CallShapeFacts.

Section LoopShapeFacts.

Context {Start Surface Cache Out OutAt : Type}
        {m_impl : Stepper Start Surface Cache Out OutAt}.
Context {P Ext Actions Aborters IA : Type}.
Context {actions_call : Actor Actions Cache Ext}
        {aborters_call : Aborter Aborters Cache (Result P Ext)}
        {internal_call : Aborter IA Cache (Result P Ext)}.

Variables (options : Options Actions Aborters) (ia : IA).

Local Abbreviation state := (PState Surface Cache P Ext IA).

(** The rule of the loop with two assertions: [Inv] holds whenever the
    guard is tested, [Post] when the loop is left, by the guard or by
    [break]. *)
Lemma propagation_loop_rule (Inv Post : state -> Prop) :
  Options_wf options ->
  (forall st b st',
      Inv st -> (steps (result st) < max_steps options)%N ->
      loop_body options ia st = Some (b, st') ->
      if b then Post st' else Inv (bump st')) ->
  (forall st,
      Inv st -> (max_steps options <= steps (result st))%N -> Post st) ->
  forall fuel st,
    Inv st ->
    N.to_nat (max_steps options - steps (result st)) <= fuel ->
    exists st',
      propagation_loop fuel options ia st = Some (tt, st') /\ Post st'.
Proof.
  intros Hwf Hstep Hexit. unfold Options_wf in Hwf.
  induction fuel as [|fuel IH]; intros st HI Hfuel; simpl;
    unfold bind at 1; unfold get_result;
    destruct (N.ltb_spec (steps (result st)) (max_steps options))
      as [Hlt|Hge];
    try (exists st; split; [reflexivity|now apply Hexit]).
  - lia.
  - unfold bind at 1.
    destruct (loop_body options ia st) as [[b st1]|] eqn:Hb.
    2:{ rewrite loop_body_eq in Hb.
        destruct (stepped options st) as [[? ?] ?]; discriminate. }
    pose proof (Hstep st b st1 HI Hlt Hb) as HI1.
    pose proof Hb as Hs. apply loop_body_steps in Hs.
    destruct b.
    + exists st1. now split.
    + unfold bind, incr_steps. fold (bump st1).
      apply IH; [exact HI1|].
      simpl. rewrite Hs, uint_incr_small by lia. lia.
Qed.

Lemma propagate__rule (Inv Post : state -> Prop) (st : state) :
  Options_wf options ->
  (forall st b st',
      Inv st -> (steps (result st) < max_steps options)%N ->
      loop_body options ia st = Some (b, st') ->
      if b then Post st' else Inv (bump st')) ->
  (forall st,
      Inv st -> (max_steps options <= steps (result st))%N -> Post st) ->
  abort_check ia (result st) (cache st) = false ->
  Inv (checked ia false st) ->
  exists st',
    propagate_ options ia st = Some (IN_PROGRESS, st') /\ Post st'.
Proof.
  intros Hwf Hstep Hexit Hchk HI. rewrite propagate__eq, Hchk.
  destruct (propagation_loop_rule Inv Post Hwf Hstep Hexit
              (N.to_nat (max_steps options)) (checked ia false st) HI)
    as (st' & Hrun & HP); [simpl; lia|].
  exists st'. now rewrite Hrun.
Qed.

(** The calls of a run of [propagate_] whose first check does not fire:
    the check, then passes that end in the loop increment, then the way
    the loop is left. The step counter stays within [max_steps], and
    reaches it when the loop is left by its guard. *)
Lemma propagate__run_shape (st : state) :
  Options_wf options ->
  abort_check ia (result st) (cache st) = false ->
  (steps (result st) <= max_steps options)%N ->
  exists st' q last,
    propagate_ options ia st = Some (IN_PROGRESS, st')
    /\ log st' = log st ++ EvInternalAbort ia false :: q ++ last
    /\ quiet ia q /\ closing ia last
    /\ (steps (result st') <= max_steps options)%N
    /\ (last = [] -> steps (result st') = max_steps options).
Proof.
  intros Hwf Hchk Hle.
  destruct (propagate__rule
              (fun s => (steps (result s) <= max_steps options)%N
                        /\ exists q,
                            log s = log (checked ia false st) ++ q
                            /\ quiet ia q)
              (fun s => (steps (result s) <= max_steps options)%N
                        /\ exists q last,
                            log s = log (checked ia false st) ++ q ++ last
                            /\ quiet ia q /\ closing ia last
                            /\ (last = [] ->
                                steps (result s) = max_steps options))
              st Hwf) as (st' & Hrun & Hbound & q & last & Hlog & Hq & Hc & Hl).
  - intros s b s' (Hs & q & Hlog & Hq) Hlt Hb.
    destruct (loop_body_effect _ _ _ _ _ Hb)
      as (adv & b1 & b2 & Hlog' & Hbb & _).
    apply loop_body_steps in Hb. unfold Options_wf in Hwf.
    assert (Hinc : uint_incr (steps (result s)) = (steps (result s) + 1)%N)
      by (apply uint_incr_small; lia).
    destruct b.
    + split; [rewrite Hb, Hinc; lia|].
      exists q, (EvStep adv :: EvActions :: EvUserAbort b1
                   :: (if b1 then [] else [EvInternalAbort ia b2])).
      split; [now rewrite Hlog', Hlog, <- app_assoc|].
      split; [exact Hq|].
      split; [|discriminate].
      destruct b1; [constructor|].
      simpl in Hbb. subst b2. constructor.
    + symmetry in Hbb. apply orb_false_iff in Hbb. destruct Hbb; subst b1 b2.
      split; [simpl; rewrite Hb, Hinc; lia|].
      exists (q ++ full_pass ia adv).
      split; [simpl; now rewrite Hlog', Hlog, <- app_assoc|].
      now constructor.
  - intros s (Hs & q & Hlog & Hq) Hge.
    split; [exact Hs|]. exists q, [].
    rewrite app_nil_r. repeat split; auto; try constructor. lia.
  - exact Hchk.
  - split; [exact Hle|]. exists []. split; [now rewrite app_nil_r|constructor].
  - exists st', q, last. repeat split; auto.
    rewrite Hlog. simpl. now rewrite <- app_assoc.
Qed.

End LoopShapeFacts.

Section StatusKept.

Context {Start Surface Cache Out OutAt : Type}
        {m_impl : Stepper Start Surface Cache Out OutAt}.
Context {P Ext Actions Aborters IA : Type}.
Context {actions_call : Actor Actions Cache Ext}
        {aborters_call : Aborter Aborters Cache (Result P Ext)}
        {internal_call : Aborter IA Cache (Result P Ext)}.

(** X8. [propagate_] returns, and whatever it returns it writes neither
    [result.status] nor [result.endParameters]: the status it computes
    only travels through its return value. *)
Theorem propagate__keeps_status
        (options : Options Actions Aborters) (ia : IA)
        (st : PState Surface Cache P Ext IA) :
  Options_wf options ->
  exists s st',
    propagate_ options ia st = Some (s, st')
    /\ status (result st') = status (result st)
    /\ endParameters (result st') = endParameters (result st).
Proof.
  intros Hwf.
  destruct (abort_check ia (result st) (cache st)) eqn:Hchk.
  - exists FAILURE, (checked ia true st).
    rewrite propagate__eq, Hchk. repeat split.
  - destruct (propagate__invariant options ia
                (fun s => status (result s) = status (result st)
                          /\ endParameters (result s)
                             = endParameters (result st))
                st Hwf) as (st' & Hrun & Hs & He).
    + intros s b s' [Hs He] _ Hb.
      destruct (loop_body_effect _ _ _ _ _ Hb)
        as (_ & _ & _ & _ & _ & _ & He' & Hs').
      destruct b; simpl; rewrite He', Hs'; now split.
    + exact Hchk.
    + now split.
    + exists IN_PROGRESS, st'. now repeat split.
Qed.

End StatusKept.

(** [std::abs] forgets the sign of its argument. *)
Lemma float_abs_opp (x : float) : abs (- x) = abs x.
Proof.
  apply FloatAxioms.Prim2SF_inj.
  rewrite !FloatAxioms.abs_spec, FloatAxioms.opp_spec.
  destruct (FloatOps.Prim2SF x); reflexivity.
Qed.

Section PathLengthOption.

Context {Start Surface Cache Out OutAt : Type}
        {m_impl : Stepper Start Surface Cache Out OutAt}.
Context {P Ext Actions Aborters IA : Type}.
Context {actions_call : Actor Actions Cache Ext}
        {aborters_call : Aborter Aborters Cache (Result P Ext)}
        {internal_call : Aborter IA Cache (Result P Ext)}.

(** The [for] statement, one test of its guard unfolded. *)
Lemma propagation_loop_unfold
      (o : Options Actions Aborters) (ia : IA) (fuel : nat)
      (st : PState Surface Cache P Ext IA) :
  propagation_loop fuel o ia st =
  if (steps (result st) <? max_steps o)%N then
    match fuel with
    | O => None
    | S fuel' =>
        match loop_body o ia st with
        | Some (true, st1) => Some (tt, st1)
        | Some (false, st1) => propagation_loop fuel' o ia (bump st1)
        | None => None
        end
    end
  else Some (tt, st).
Proof.
  destruct fuel as [|fuel]; simpl; unfold bind at 1; unfold get_result;
    destruct (steps (result st) <? max_steps o)%N; try reflexivity.
  unfold bind at 1.
  destruct (loop_body o ia st) as [[[] st1]|]; reflexivity.
Qed.

(** The loop reads [max_steps], the action list and the user abort list
    of the options, and not [max_path_length]. *)
Lemma propagation_loop_max_path_length
      (o : Options Actions Aborters) (x : float) (ia : IA) (fuel : nat)
      (st : PState Surface Cache P Ext IA) :
  propagation_loop fuel (set_max_path_length o x) ia st
  = propagation_loop fuel o ia st.
Proof.
  revert st. induction fuel as [|fuel IH]; intros st;
    rewrite !propagation_loop_unfold;
    change (max_steps (set_max_path_length o x)) with (max_steps o);
    [reflexivity|].
  change (loop_body (set_max_path_length o x) ia) with (loop_body o ia).
  destruct (steps (result st) <? max_steps o)%N; [|reflexivity].
  destruct (loop_body o ia st) as [[[] st1]|]; auto.
Qed.

Lemma propagate__max_path_length
      (o : Options Actions Aborters) (x : float) (ia : IA)
      (st : PState Surface Cache P Ext IA) :
  propagate_ (set_max_path_length o x) ia st = propagate_ o ia st.
Proof.
  rewrite !propagate__eq.
  change (max_steps (set_max_path_length o x)) with (max_steps o).
  now rewrite propagation_loop_max_path_length.
Qed.

End PathLengthOption.

(** ** More facts about the two [propagate] overloads *)

Section PropagateRunFacts.

Context {Start Surface Cache Out OutAt : Type}
        {m_impl : Stepper Start Surface Cache Out OutAt}.
Context {Ext Actions Aborters : Type} {ext_init : Extendable Ext}.
Context {actions_call : Actor Actions Cache Ext}.
Context {aborters_call : Aborter Aborters Cache (Result Out Ext)}
        {path_limit_call : Aborter path_limit_reached Cache (Result Out Ext)}.
Context {aborters_call_to : Aborter Aborters Cache (Result OutAt Ext)}
        {target_call : Aborter (surface_reached Surface) Cache (Result OutAt Ext)}
        {path_limit_call_to : Aborter path_limit_reached Cache (Result OutAt Ext)}.

Variables (start : Start) (target : Surface)
          (options : Options Actions Aborters).

Local Abbreviation path_limit_abort :=
  {| signed_path_limit :=
       (abs (max_path_length options)
        * Direction_double (direction options))%float;
     pl_tolerance := target_tolerance options |}.

Local Abbreviation at_target_abort :=
  {| sr_surface := target;
     sr_direction := direction options;
     sr_tolerance := target_tolerance options |}.

Local Abbreviation entry :=
  {| result := Result_ctor Out ext_default IN_PROGRESS;
     cache := start_cache start options;
     log := @nil (Event Cache Surface path_limit_reached) |}.

Local Abbreviation entry_to :=
  {| result := Result_ctor OutAt ext_default IN_PROGRESS;
     cache := start_cache_to start options;
     log := @nil (Event Cache Surface
                    (surface_reached Surface * path_limit_reached)) |}.

(** A successful call of either overload: what [propagate_] left, and
    the shape of its log. *)
Lemma propagate_run :
  Options_wf options ->
  initial_check start options = false ->
  exists (st' : PState Surface Cache Out Ext path_limit_reached) q last,
    propagate start options =
    Some (set_status (set_endParameters (result st') (convert (cache st')))
            SUCCESS,
          EvInternalAbort path_limit_abort false
            :: q ++ last ++ [EvConvert (cache st')])
    /\ quiet path_limit_abort q /\ closing path_limit_abort last
    /\ (steps (result st') <= max_steps options)%N
    /\ (last = [] -> steps (result st') = max_steps options)
    /\ steps (result st') = N.of_nat (step_calls (q ++ last)).
Proof.
  intros Hwf Hchk.
  destruct (propagate__run_shape options path_limit_abort entry Hwf Hchk
              (N.le_0_l _))
    as (st' & q & last & Hrun & Hlog & Hq & Hc & Hb & Hl).
  destruct (propagate__accounting options path_limit_abort entry Hwf Hchk
              eq_refl eq_refl) as (st2 & Hrun2 & Hs & _).
  rewrite Hrun in Hrun2. inversion Hrun2; subst st2; clear Hrun2.
  exists st', q, last.
  pose proof (propagate_success start options st') as HH.
  rewrite (HH Hrun), Hlog.
  simpl. rewrite <- app_assoc. repeat split; auto.
  now rewrite Hs, Hlog.
Qed.

Lemma propagate_to_run :
  Options_wf options ->
  initial_check_to start target options = false ->
  exists (st' : PState Surface Cache OutAt Ext
                    (surface_reached Surface * path_limit_reached)) q last,
    propagate_to start target options =
    Some (set_status
            (set_endParameters (result st') (convert_to (cache st') target))
            SUCCESS,
          EvInternalAbort (at_target_abort, path_limit_abort) false
            :: q ++ last ++ [EvConvertTo (cache st') target])
    /\ quiet (at_target_abort, path_limit_abort) q
    /\ closing (at_target_abort, path_limit_abort) last
    /\ (steps (result st') <= max_steps options)%N
    /\ (last = [] -> steps (result st') = max_steps options)
    /\ steps (result st') = N.of_nat (step_calls (q ++ last)).
Proof.
  intros Hwf Hchk.
  destruct (propagate__run_shape options (at_target_abort, path_limit_abort)
              entry_to Hwf Hchk (N.le_0_l _))
    as (st' & q & last & Hrun & Hlog & Hq & Hc & Hb & Hl).
  destruct (propagate__accounting options (at_target_abort, path_limit_abort)
              entry_to Hwf Hchk eq_refl eq_refl) as (st2 & Hrun2 & Hs & _).
  rewrite Hrun in Hrun2. inversion Hrun2; subst st2; clear Hrun2.
  exists st', q, last.
  pose proof (propagate_to_success start target options st') as HH.
  rewrite (HH Hrun), Hlog.
  simpl. rewrite <- app_assoc. repeat split; auto.
  now rewrite Hs, Hlog.
Qed.

(** X1. Every call of [propagate], either overload, returns a result
    whose step counter does not exceed [max_steps]. *)
Theorem propagate_steps_bounded :
  Options_wf options ->
  (exists r l,
      propagate start options = Some (r, l)
      /\ (steps r <= max_steps options)%N)
  /\ (exists r l,
        propagate_to start target options = Some (r, l)
        /\ (steps r <= max_steps options)%N).
Proof.
  intros Hwf. split.
  - destruct (initial_check start options) eqn:Hchk.
    + eexists _, _. split; [exact (propagate_failure start options Hchk)|].
      apply N.le_0_l.
    + destruct (propagate_run Hwf Hchk) as (st' & q & last & Hrun & _ & _ & Hb & _).
      eexists _, _. split; [exact Hrun|exact Hb].
  - destruct (initial_check_to start target options) eqn:Hchk.
    + eexists _, _.
      split; [exact (propagate_to_failure start target options Hchk)|].
      apply N.le_0_l.
    + destruct (propagate_to_run Hwf Hchk)
        as (st' & q & last & Hrun & _ & _ & Hb & _).
      eexists _, _. split; [exact Hrun|exact Hb].
Qed.

(** X2. The result either overload returns is valid ([operator bool])
    exactly when the initial internal-aborter check did not fire. *)
Theorem propagate_valid_iff :
  Options_wf options ->
  (exists r l,
      propagate start options = Some (r, l)
      /\ isValid r = negb (initial_check start options))
  /\ (exists r l,
        propagate_to start target options = Some (r, l)
        /\ isValid r = negb (initial_check_to start target options)).
Proof.
  intros Hwf. split.
  - destruct (initial_check start options) eqn:Hchk.
    + eexists _, _. split; [exact (propagate_failure start options Hchk)|].
      reflexivity.
    + destruct (propagate_run Hwf Hchk) as (st' & q & last & Hrun & _).
      eexists _, _. split; [exact Hrun|reflexivity].
  - destruct (initial_check_to start target options) eqn:Hchk.
    + eexists _, _.
      split; [exact (propagate_to_failure start target options Hchk)|].
      reflexivity.
    + destruct (propagate_to_run Hwf Hchk) as (st' & q & last & Hrun & _).
      eexists _, _. split; [exact Hrun|reflexivity].
Qed.

(** X3. The calls a successful [propagate] makes, in order: the initial
    check; any number of passes, each being one step, the actions, the
    user abort list and the internal abort list, both returning false;
    then either nothing, or one last pass cut short by the abort list
    that returned true; and last the conversion, whose value becomes the
    final parameters of a result with status SUCCESS. *)
Theorem propagate_call_sequence :
  Options_wf options ->
  (initial_check start options = false ->
   exists r c q last,
     propagate start options =
     Some (r, EvInternalAbort path_limit_abort false
                :: q ++ last ++ [EvConvert c])
     /\ quiet path_limit_abort q /\ closing path_limit_abort last
     /\ endParameters r = Some (convert c) /\ status r = SUCCESS)
  /\ (initial_check_to start target options = false ->
      exists r c q last,
        propagate_to start target options =
        Some (r, EvInternalAbort (at_target_abort, path_limit_abort) false
                   :: q ++ last ++ [EvConvertTo c target])
        /\ quiet (at_target_abort, path_limit_abort) q
        /\ closing (at_target_abort, path_limit_abort) last
        /\ endParameters r = Some (convert_to c target)
        /\ status r = SUCCESS).
Proof.
  intros Hwf. split; intros Hchk.
  - destruct (propagate_run Hwf Hchk) as (st' & q & last & Hrun & Hq & Hc & _).
    eexists _, _, q, last. split; [exact Hrun|now repeat split].
  - destruct (propagate_to_run Hwf Hchk)
      as (st' & q & last & Hrun & Hq & Hc & _).
    eexists _, _, q, last. split; [exact Hrun|now repeat split].
Qed.

(** X4. In a successful call, if no abort list returned true then
    exactly [max_steps] steps were taken; put the other way, a result
    with fewer than [max_steps] steps means an abort list returned
    true. *)
Theorem propagate_guard_or_break :
  Options_wf options ->
  (initial_check start options = false ->
   exists r l,
     propagate start options = Some (r, l)
     /\ (broke l = false -> steps r = max_steps options)
     /\ ((steps r < max_steps options)%N -> broke l = true))
  /\ (initial_check_to start target options = false ->
      exists r l,
        propagate_to start target options = Some (r, l)
        /\ (broke l = false -> steps r = max_steps options)
        /\ ((steps r < max_steps options)%N -> broke l = true)).
Proof.
  intros Hwf. split; intros Hchk.
  - destruct (propagate_run Hwf Hchk)
      as (st' & q & last & Hrun & Hq & Hc & _ & Hl & _).
    eexists _, _. split; [exact Hrun|].
    assert (H : broke (EvInternalAbort path_limit_abort false
                         :: q ++ last ++ [EvConvert (cache st')]) = false ->
                steps (result st') = max_steps options).
    { simpl. rewrite !broke_app, (quiet_not_broke _ _ Hq). simpl.
      rewrite orb_false_r. intros Hb. apply Hl.
      exact (closing_broke _ _ Hc Hb). }
    split; [exact H|]. simpl steps. intros Hlt.
    destruct (broke _); [reflexivity|]. specialize (H eq_refl). lia.
  - destruct (propagate_to_run Hwf Hchk)
      as (st' & q & last & Hrun & Hq & Hc & _ & Hl & _).
    eexists _, _. split; [exact Hrun|].
    assert (H : broke (EvInternalAbort (at_target_abort, path_limit_abort)
                         false
                         :: q ++ last ++ [EvConvertTo (cache st') target])
                = false ->
                steps (result st') = max_steps options).
    { simpl. rewrite !broke_app, (quiet_not_broke _ _ Hq). simpl.
      rewrite orb_false_r. intros Hb. apply Hl.
      exact (closing_broke _ _ Hc Hb). }
    split; [exact H|]. simpl steps. intros Hlt.
    destruct (broke _); [reflexivity|]. specialize (H eq_refl). lia.
Qed.

(** X5. In a successful call the action list and the user abort list
    are each called exactly once per step: as often as [result.steps]
    says. *)
Theorem propagate_calls_per_step :
  Options_wf options ->
  (initial_check start options = false ->
   exists r l,
     propagate start options = Some (r, l)
     /\ N.of_nat (calls is_actions l) = steps r
     /\ N.of_nat (calls is_user_abort l) = steps r)
  /\ (initial_check_to start target options = false ->
      exists r l,
        propagate_to start target options = Some (r, l)
        /\ N.of_nat (calls is_actions l) = steps r
        /\ N.of_nat (calls is_user_abort l) = steps r).
Proof.
  intros Hwf. split; intros Hchk.
  - destruct (propagate_run Hwf Hchk)
      as (st' & q & last & Hrun & Hq & Hc & _ & _ & Hs).
    eexists _, _. split; [exact Hrun|]. simpl steps. rewrite Hs.
    destruct (quiet_calls _ _ Hq) as [Hqa Hqu].
    destruct (closing_calls _ _ Hc) as [Hca Hcu].
    change (EvInternalAbort path_limit_abort false
              :: q ++ last ++ [EvConvert (cache st')])
      with ([EvInternalAbort path_limit_abort false]
              ++ q ++ last ++ [EvConvert (cache st')]).
    rewrite !calls_app, step_calls_app, Hqa, Hqu, Hca, Hcu.
    split; simpl; now rewrite Nat.add_0_r.
  - destruct (propagate_to_run Hwf Hchk)
      as (st' & q & last & Hrun & Hq & Hc & _ & _ & Hs).
    eexists _, _. split; [exact Hrun|]. simpl steps. rewrite Hs.
    destruct (quiet_calls _ _ Hq) as [Hqa Hqu].
    destruct (closing_calls _ _ Hc) as [Hca Hcu].
    change (EvInternalAbort (at_target_abort, path_limit_abort) false
              :: q ++ last ++ [EvConvertTo (cache st') target])
      with ([EvInternalAbort (at_target_abort, path_limit_abort) false]
              ++ q ++ last ++ [EvConvertTo (cache st') target]).
    rewrite !calls_app, step_calls_app, Hqa, Hqu, Hca, Hcu.
    split; simpl; now rewrite Nat.add_0_r.
Qed.

(** X6. Once an abort list has returned true, be it in the initial check
    or in the loop, neither [step] nor the actions nor an abort list is
    called again: at most the conversion follows. *)
Theorem propagate_nothing_after_abort :
  Options_wf options ->
  (exists r l,
      propagate start options = Some (r, l)
      /\ forall l1 e l2,
          l = l1 ++ e :: l2 -> abort_fired e = true ->
          Forall (fun e' => is_convert e' = true) l2)
  /\ (exists r l,
        propagate_to start target options = Some (r, l)
        /\ forall l1 e l2,
            l = l1 ++ e :: l2 -> abort_fired e = true ->
            Forall (fun e' => is_convert e' = true) l2).
Proof.
  intros Hwf. split.
  - destruct (initial_check start options) eqn:Hchk.
    + eexists _, _. split; [exact (propagate_failure start options Hchk)|].
      intros l1 e l2 Heq _.
      destruct l1 as [|x l1]; inversion Heq; [constructor|].
      now destruct l1.
    + destruct (propagate_run Hwf Hchk) as (st' & q & last & Hrun & Hq & Hc & _).
      eexists _, _. split; [exact Hrun|].
      intros l1 e l2 Heq He.
      assert (Hquiet : broke (EvInternalAbort path_limit_abort false :: q)
                       = false)
        by (simpl; exact (quiet_not_broke _ _ Hq)).
      assert (Hsplit : (EvInternalAbort path_limit_abort false :: q)
                       ++ (last ++ [EvConvert (cache st')])
                       = l1 ++ e :: l2)
        by (rewrite <- Heq; reflexivity).
      destruct (fired_behind _ _ l1 e l2 Hquiet Hsplit He) as [l1' Heq'].
      clear Heq Hsplit. destruct Hc; simpl in Heq';
        repeat (destruct l1' as [|? l1']; simpl in Heq';
                [ try discriminate Heq'; inversion Heq'; subst;
                  simpl in He; try discriminate He; repeat constructor
                | try discriminate Heq'; injection Heq' as _ Heq' ]).
  - destruct (initial_check_to start target options) eqn:Hchk.
    + eexists _, _.
      split; [exact (propagate_to_failure start target options Hchk)|].
      intros l1 e l2 Heq _.
      destruct l1 as [|x l1]; inversion Heq; [constructor|].
      now destruct l1.
    + destruct (propagate_to_run Hwf Hchk)
        as (st' & q & last & Hrun & Hq & Hc & _).
      eexists _, _. split; [exact Hrun|].
      intros l1 e l2 Heq He.
      assert (Hquiet : broke (EvInternalAbort
                                (at_target_abort, path_limit_abort) false
                                :: q) = false)
        by (simpl; exact (quiet_not_broke _ _ Hq)).
      assert (Hsplit : (EvInternalAbort (at_target_abort, path_limit_abort)
                          false :: q)
                       ++ (last ++ [EvConvertTo (cache st') target])
                       = l1 ++ e :: l2)
        by (rewrite <- Heq; reflexivity).
      destruct (fired_behind _ _ l1 e l2 Hquiet Hsplit He) as [l1' Heq'].
      clear Heq Hsplit. destruct Hc; simpl in Heq';
        repeat (destruct l1' as [|? l1']; simpl in Heq';
                [ try discriminate Heq'; inversion Heq'; subst;
                  simpl in He; try discriminate He; repeat constructor
                | try discriminate Heq'; injection Heq' as _ Heq' ]).
Qed.

(** X7. Only the magnitude of [max_path_length] matters: a call with a
    negated [max_path_length] is the same call. *)
Theorem propagate_max_path_length_sign (x : float) :
  propagate start (set_max_path_length options (- x)%float)
  = propagate start (set_max_path_length options x)
  /\ propagate_to start target (set_max_path_length options (- x)%float)
     = propagate_to start target (set_max_path_length options x).
Proof.
  unfold propagate, propagate_to. cbv zeta.
  rewrite !propagate__max_path_length.
  cbn [set_max_path_length direction max_step_size max_path_length
       target_tolerance].
  rewrite float_abs_opp. split; reflexivity.
Qed.

End PropagateRunFacts.

(** ** Further runs of the straight-line propagator *)

Lemma propagate_steps_bounded_witness :
  Options_wf (budget_options forward 3 100 2)
  /\ (exists r l,
        propagate 0%float (budget_options forward 3 100 2) = Some (r, l)
        /\ (steps r <= max_steps (budget_options forward 3 100 2))%N)
  /\ (exists r l,
        propagate_to 0%float 5%float (budget_options forward 3 100 2)
        = Some (r, l)
        /\ (steps r <= max_steps (budget_options forward 3 100 2))%N).
Proof.
  assert (Hwf : Options_wf (budget_options forward 3 100 2))
    by (vm_compute; reflexivity).
  split; [exact Hwf|].
  exact (propagate_steps_bounded 0%float 5%float
           (budget_options forward 3 100 2) Hwf).
Defined.

Lemma propagate_valid_iff_witness :
  Options_wf (plain_options forward 3 0)
  /\ (exists r l,
        propagate 0%float (plain_options forward 3 0) = Some (r, l)
        /\ isValid r = negb (initial_check 0%float (plain_options forward 3 0)))
  /\ (exists r l,
        propagate_to 0%float 2%float (plain_options forward 3 0) = Some (r, l)
        /\ isValid r
           = negb (initial_check_to 0%float 2%float
                     (plain_options forward 3 0))).
Proof.
  assert (Hwf : Options_wf (plain_options forward 3 0))
    by (vm_compute; reflexivity).
  split; [exact Hwf|].
  exact (propagate_valid_iff 0%float 2%float (plain_options forward 3 0) Hwf).
Defined.

Lemma propagate_call_sequence_witness :
  Options_wf (budget_options forward 5 100 2)
  /\ initial_check 0%float (budget_options forward 5 100 2) = false
  /\ exists r c q last,
      propagate 0%float (budget_options forward 5 100 2)
      = Some (r, EvInternalAbort (mk_path_limit_reached 100 0.0009765625) false
                   :: q ++ last ++ [EvConvert c])
      /\ quiet (mk_path_limit_reached 100 0.0009765625) q
      /\ closing (mk_path_limit_reached 100 0.0009765625) last
      /\ endParameters r = Some (convert c) /\ status r = SUCCESS.
Proof.
  assert (Hwf : Options_wf (budget_options forward 5 100 2))
    by (vm_compute; reflexivity).
  split; [exact Hwf|].
  split; [vm_compute; reflexivity|].
  apply (proj1 (propagate_call_sequence 0%float 5%float
                  (budget_options forward 5 100 2) Hwf)).
  vm_compute; reflexivity.
Defined.

Lemma propagate_guard_or_break_witness :
  Options_wf (budget_options forward 5 100 2)
  /\ initial_check 0%float (budget_options forward 5 100 2) = false
  /\ exists r l,
      propagate 0%float (budget_options forward 5 100 2) = Some (r, l)
      /\ (broke l = false ->
          steps r = max_steps (budget_options forward 5 100 2))
      /\ ((steps r < max_steps (budget_options forward 5 100 2))%N ->
          broke l = true).
Proof.
  assert (Hwf : Options_wf (budget_options forward 5 100 2))
    by (vm_compute; reflexivity).
  split; [exact Hwf|].
  split; [vm_compute; reflexivity|].
  apply (proj1 (propagate_guard_or_break 0%float 5%float
                  (budget_options forward 5 100 2) Hwf)).
  vm_compute; reflexivity.
Defined.

Lemma propagate_calls_per_step_witness :
  Options_wf (plain_options backward 10 2.5)
  /\ initial_check_to 0%float (-2)%float (plain_options backward 10 2.5) = false
  /\ exists r l,
      propagate_to 0%float (-2)%float (plain_options backward 10 2.5)
      = Some (r, l)
      /\ N.of_nat (calls is_actions l) = steps r
      /\ N.of_nat (calls is_user_abort l) = steps r.
Proof.
  assert (Hwf : Options_wf (plain_options backward 10 2.5))
    by (vm_compute; reflexivity).
  split; [exact Hwf|].
  split; [vm_compute; reflexivity|].
  apply (proj2 (propagate_calls_per_step 0%float (-2)%float
                  (plain_options backward 10 2.5) Hwf)).
  vm_compute; reflexivity.
Defined.

Lemma propagate_nothing_after_abort_witness :
  Options_wf (plain_options backward 10 2.5)
  /\ exists r l,
      propagate 0%float (plain_options backward 10 2.5) = Some (r, l)
      /\ forall l1 e l2,
          l = l1 ++ e :: l2 -> abort_fired e = true ->
          Forall (fun e' => is_convert e' = true) l2.
Proof.
  assert (Hwf : Options_wf (plain_options backward 10 2.5))
    by (vm_compute; reflexivity).
  split; [exact Hwf|].
  exact (proj1 (propagate_nothing_after_abort 0%float (-2)%float
                  (plain_options backward 10 2.5) Hwf)).
Defined.

Lemma propagate__keeps_status_witness :
  Options_wf (plain_options forward 3 100)
  /\ exists s st',
      propagate_ (plain_options forward 3 100)
        (mk_path_limit_reached 100 0.0009765625)
        {| result := Result_ctor float 0%N UNSET;
           cache := mkLineCache 0 1;
           log := @nil (Event LineCache float path_limit_reached) |}
      = Some (s, st')
      /\ status (result st') = UNSET
      /\ endParameters (result st') = None.
Proof.
  assert (Hwf : Options_wf (plain_options forward 3 100))
    by (vm_compute; reflexivity).
  split; [exact Hwf|].
  exact (propagate__keeps_status (plain_options forward 3 100)
           (mk_path_limit_reached 100 0.0009765625)
           {| result := Result_ctor float 0%N UNSET;
              cache := mkLineCache 0 1;
              log := @nil (Event LineCache float path_limit_reached) |} Hwf).
Defined.
